(** * redis-cachify-function: the cache-aside decorator of [src/index.js]

    [module.exports(cachedFunc, options)] returns a function that looks
    the key up in redis, takes a redis-lock when nothing was found, runs
    [cachedFunc], stores its result and reports through the trailing
    callback of the call.  The other export, [invalidate], is a single
    [redis.del]; it has its own small model, [Invalidate].

    The code is written in continuation-passing style and so is the
    embedding: a call of the decorated function is a program of
    requests to the collaborators (redis, the lock, [cachedFunc]), each
    carrying the JavaScript callback as a Rocq continuation.  The
    program is run in two ways: one call against given answers of the
    collaborators, which yields the trace of the call, and several
    calls interleaved against an exclusive lock. *)

From Stdlib Require Import List String Ascii ZArith Bool Lia DecimalString.
From Stdlib Require Import DecimalPos.
Import ListNotations.
Open Scope string_scope.

Set Warnings "-register-all".

(** ** JavaScript values *)

(** The values that flow through the decorator and that
    [JSON.stringify] accepts.  [VNum n] is the integer [n] and
    [VDec m e] the number [m * 10^e]; both stand for the double nearest
    to them, which is an infinity beyond the largest double.  A
    function supplied by the caller is known by an identifier only. *)
Inductive value : Type :=
| VUndefined
| VNull
| VBool (b : bool)
| VNum (n : Z)
| VDec (m e : Z)
| VNaN
| VStr (s : string)
| VArr (items : list value)
| VObj (fields : list (string * value))
| VFun (id : nat).

(** The number [m * 10^e] is 0 as a double: it is at most [2^-1075],
    half the least positive double. *)
Definition rounds_to_zero (m e : Z) : bool :=
  ((m =? 0) || ((e <? 0) && (Z.abs m * 2 ^ 1075 <=? 10 ^ (- e))))%Z.

(** ToBoolean, as used by [if(...)], [||], [&&] and [!]. *)
Definition truthy (v : value) : bool :=
  match v with
  | VUndefined | VNull => false
  | VBool b => b
  | VNum n => negb (n =? 0)%Z
  | VDec m e => negb (rounds_to_zero m e)
  | VNaN => false
  | VStr s => negb (s =? "")
  | VArr _ | VObj _ | VFun _ => true
  end.

(** [a || b] on values. *)
Definition js_or (a b : value) : value := if truthy a then a else b.

Inductive exn : Type :=
| SyntaxError  (* JSON.parse on text that is not JSON *)
| TypeError    (* calling something that is not a function;
                  JSON.stringify on a cyclic structure or a BigInt *)
| Other (thrown : value).  (* whatever else a function throws *)

(** ** JSON.stringify and JSON.parse

    The two built-ins the decorator calls, on the values above. *)

Module JSON.

Definition dquote : ascii := ascii_of_nat 34.

Definition hex_digit (n : nat) : ascii :=
  nth n (list_ascii_of_string "0123456789abcdef") "0"%char.

(** One character of a quoted string. *)
Definition quote_char (c : ascii) : string :=
  let n := nat_of_ascii c in
  if Nat.eqb n 34 then String "\" (String dquote "")
  else if Nat.eqb n 92 then "\\"
  else if Nat.eqb n 8 then "\b"
  else if Nat.eqb n 12 then "\f"
  else if Nat.eqb n 10 then "\n"
  else if Nat.eqb n 13 then "\r"
  else if Nat.eqb n 9 then "\t"
  else if Nat.ltb n 32 then
    "\u00" ++ String (hex_digit (n / 16)) (String (hex_digit (n mod 16)) "")
  else String c "".

Fixpoint quote_chars (s : string) : string :=
  match s with
  | EmptyString => ""
  | String c r => quote_char c ++ quote_chars r
  end.

Definition quote (s : string) : string :=
  String dquote (quote_chars s ++ String dquote "").

(** Number::toString.  [shorten] drops the trailing zeros of the
    digits [m]; [decimal_text m e] writes [m * 10^e] for such an [m],
    positive, as JavaScript does: in positional notation when the
    decimal point falls within 21 digits to the right or 6 to the left
    of the first digit, with an exponent otherwise.  The digits written
    are those of the number as it is kept; where these are more than a
    double tells apart, JavaScript writes the shortest digits of the
    double. *)
Fixpoint shorten (fuel : nat) (m e : Z) : Z * Z :=
  match fuel with
  | 0 => (m, e)
  | S fuel' =>
      if ((m mod 10 =? 0) && negb (m =? 0))%Z
      then shorten fuel' (m / 10)%Z (e + 1)%Z
      else (m, e)
  end.

Definition zeros (n : nat) : string :=
  string_of_list_ascii (repeat "0"%char n).

Definition decimal_text (m e : Z) : string :=
  let d := NilZero.string_of_int (Z.to_int m) in
  let k := Z.of_nat (String.length d) in
  let n := (k + e)%Z in
  if ((k <=? n) && (n <=? 21))%Z then d ++ zeros (Z.to_nat (n - k))
  else if ((0 <? n) && (n <=? 21))%Z then
    substring 0 (Z.to_nat n) d ++ "." ++
    substring (Z.to_nat n) (Z.to_nat (k - n)) d
  else if ((-6 <? n) && (n <=? 0))%Z then
    "0." ++ zeros (Z.to_nat (- n)) ++ d
  else
    (if (k =? 1)%Z then d
     else substring 0 1 d ++ "." ++ substring 1 (Z.to_nat (k - 1)) d) ++
    "e" ++ (if (n - 1 <? 0)%Z then "-" else "+") ++
    NilZero.string_of_int (Z.to_int (Z.abs (n - 1))).

Definition signed_text (m e : Z) : string :=
  let '(m', e') := shorten (Z.to_nat (Z.log2_up (Z.abs m + 1))) m e in
  (if (m' <? 0)%Z then "-" else "") ++ decimal_text (Z.abs m') e'.

(** The numbers beyond the largest double are [Infinity], which is
    written [null]. *)
Definition infinite (m e : Z) : bool :=
  ((0 <=? e) && (2 ^ 1024 - 2 ^ 970 <=? Z.abs m * 10 ^ e))%Z.

Definition number_text (n : Z) : string :=
  if (Z.abs n <? 1000000000000000000000)%Z
  then NilZero.string_of_int (Z.to_int n)
  else if infinite n 0 then "null"
  else signed_text n 0.

Definition decimal_number_text (m e : Z) : string :=
  if rounds_to_zero m e then "0"
  else if infinite m e then "null"
  else signed_text m e.

Fixpoint join (sep : string) (l : list string) : string :=
  match l with
  | [] => ""
  | [x] => x
  | x :: r => x ++ sep ++ join sep r
  end.

(** Serialization proper: [None] is JavaScript's [undefined] result,
    given for [undefined] and for functions. *)
Fixpoint text (v : value) : option string :=
  match v with
  | VUndefined | VFun _ => None
  | VNull => Some "null"
  | VBool true => Some "true"
  | VBool false => Some "false"
  | VNum n => Some (number_text n)
  | VDec m e => Some (decimal_number_text m e)
  | VNaN => Some "null"
  | VStr s => Some (quote s)
  | VArr items =>
      let item x := match text x with Some t => t | None => "null" end in
      Some ("[" ++ join "," (map item items) ++ "]")
  | VObj fields =>
      let member (f : string * value) : list string :=
        match text (snd f) with
        | Some t => [quote (fst f) ++ ":" ++ t]
        | None => []
        end in
      Some ("{" ++ join "," (flat_map member fields) ++ "}")
  end.

(** [JSON.stringify(v)] for a value [v].  On data that is no value it
    throws, which is accounted for where the decorator calls it. *)
Definition stringify (v : value) : value :=
  match text v with
  | Some t => VStr t
  | None => VUndefined
  end.

(** *** Parsing *)

Definition is_ws (c : ascii) : bool :=
  let n := nat_of_ascii c in
  Nat.eqb n 32 || Nat.eqb n 9 || Nat.eqb n 10 || Nat.eqb n 13.

Fixpoint skip_ws (s : list ascii) : list ascii :=
  match s with
  | c :: r => if is_ws c then skip_ws r else s
  | [] => []
  end.

Definition digit_of (c : ascii) : option Z :=
  let n := nat_of_ascii c in
  if Nat.leb 48 n && Nat.leb n 57 then Some (Z.of_nat (n - 48)) else None.

Definition hex_of (c : ascii) : option N :=
  let n := nat_of_ascii c in
  if Nat.leb 48 n && Nat.leb n 57 then Some (N.of_nat (n - 48))
  else if Nat.leb 97 n && Nat.leb n 102 then Some (N.of_nat (n - 87))
  else if Nat.leb 65 n && Nat.leb n 70 then Some (N.of_nat (n - 55))
  else None.

Fixpoint digits (acc : Z) (s : list ascii) : Z * list ascii :=
  match s with
  | c :: r =>
      match digit_of c with
      | Some d => digits (10 * acc + d) r
      | None => (acc, s)
      end
  | [] => (acc, [])
  end.

Definition starts_with_digit (s : list ascii) : bool :=
  match s with
  | c :: _ => match digit_of c with Some _ => true | None => false end
  | [] => false
  end.

(** The digits of a fraction after the mantissa [m] read so far: each
    one lowers the exponent [e]. *)
Fixpoint fraction_digits (m e : Z) (s : list ascii)
  : Z * Z * list ascii :=
  match s with
  | c :: r =>
      match digit_of c with
      | Some d => fraction_digits (10 * m + d) (e - 1) r
      | None => (m, e, s)
      end
  | [] => (m, e, [])
  end.

(** A fraction, if one follows the integer part [n]: a point and at
    least one digit. *)
Definition fraction (n : Z) (r : list ascii)
  : option (Z * Z * list ascii) :=
  match r with
  | "."%char :: r' =>
      if starts_with_digit r' then Some (fraction_digits n 0 r') else None
  | _ => Some (n, 0%Z, r)
  end.

(** An exponent, if one follows: [e] or [E], a sign or none, and at
    least one digit. *)
Definition exponent (r : list ascii) : option (Z * list ascii) :=
  match r with
  | "e"%char :: r' | "E"%char :: r' =>
      let '(neg, r'') :=
        match r' with
        | "-"%char :: x => (true, x)
        | "+"%char :: x => (false, x)
        | _ => (false, r')
        end in
      if starts_with_digit r''
      then let '(x, rest) := digits 0 r'' in
           Some (if neg then (- x)%Z else x, rest)
      else None
  | _ => Some (0%Z, r)
  end.

(** Trailing zeros of the mantissa go into a negative exponent. *)
Fixpoint strip (fuel : nat) (m e : Z) : Z * Z :=
  match fuel with
  | 0 => (m, e)
  | S fuel' =>
      if ((e <? 0) && (m mod 10 =? 0))%Z
      then strip fuel' (m / 10)%Z (e + 1)%Z
      else (m, e)
  end.

(** The value of the literal that denotes [m * 10^e]. *)
Definition number (m e : Z) : value :=
  if (0 <=? e)%Z then VNum (m * 10 ^ e)
  else
    let '(m', e') := strip (Z.to_nat (- e)) m e in
    if (0 <=? e')%Z then VNum m'
    else if rounds_to_zero m' e' then VNum 0
    else VDec m' e'.

(** After the integer part [n] of a number. *)
Definition number_end (neg : bool) (n : Z) (r : list ascii)
  : option (value * list ascii) :=
  match fraction n r with
  | None => None
  | Some (m, e, r1) =>
      match exponent r1 with
      | None => None
      | Some (x, r2) => Some (number (if neg then - m else m) (e + x), r2)
      end
  end.

Definition parse_number (s : list ascii) : option (value * list ascii) :=
  let '(neg, s1) :=
    match s with
    | "-"%char :: r => (true, r)
    | _ => (false, s)
    end in
  match s1 with
  | c :: r =>
      match digit_of c with
      | Some 0%Z => number_end neg 0 r
      | Some d => let '(n, r') := digits d r in number_end neg n r'
      | None => None
      end
  | [] => None
  end.

Definition unescape (c : ascii) : option ascii :=
  let n := nat_of_ascii c in
  if Nat.eqb n 34 || Nat.eqb n 92 || Nat.eqb n 47 then Some c
  else if Nat.eqb n 98 then Some (ascii_of_nat 8)
  else if Nat.eqb n 102 then Some (ascii_of_nat 12)
  else if Nat.eqb n 110 then Some (ascii_of_nat 10)
  else if Nat.eqb n 114 then Some (ascii_of_nat 13)
  else if Nat.eqb n 116 then Some (ascii_of_nat 9)
  else None.

(** The code unit that the four hexadecimal digits of a [\u] escape
    denote. *)
Definition unicode (a b c d : ascii) : option N :=
  match hex_of a, hex_of b, hex_of c, hex_of d with
  | Some a, Some b, Some c, Some d => Some (4096 * a + 256 * b + 16 * c + d)%N
  | _, _, _, _ => None
  end.

(** Strings are kept as their UTF-8 bytes. *)
Definition utf8 (cp : N) : string :=
  let byte n := ascii_of_N n in
  (if cp <? 128 then String (byte cp) ""
   else if cp <? 2048 then
     String (byte (192 + cp / 64)) (String (byte (128 + cp mod 64)) "")
   else if cp <? 65536 then
     String (byte (224 + cp / 4096))
       (String (byte (128 + (cp / 64) mod 64))
          (String (byte (128 + cp mod 64)) ""))
   else
     String (byte (240 + cp / 262144))
       (String (byte (128 + (cp / 4096) mod 64))
          (String (byte (128 + (cp / 64) mod 64))
             (String (byte (128 + cp mod 64)) ""))))%N.

(** A high surrogate followed by a low one make one code point. *)
Definition surrogates (hi lo : N) : option N :=
  (if (55296 <=? hi) && (hi <? 56320) && (56320 <=? lo) && (lo <? 57344)
   then Some (65536 + (hi - 55296) * 1024 + (lo - 56320))
   else None)%N.

(** The code point that a high surrogate [hi] makes with the [\u]
    escape at the head of [r], if there is one and it is a low
    surrogate. *)
Definition pair (hi : N) (r : list ascii) : option N :=
  match r with
  | "\"%char :: "u"%char :: a :: b :: x :: y :: _ =>
      match unicode a b x y with
      | Some lo => surrogates hi lo
      | None => None
      end
  | _ => None
  end.

(** The characters of a string literal, after its opening quote. *)
Fixpoint parse_chars (s : list ascii) : option (string * list ascii) :=
  match s with
  | [] => None
  | c :: r =>
      let n := nat_of_ascii c in
      if Nat.eqb n 34 then Some ("", r)
      else if Nat.eqb n 92 then
        match r with
        | "u"%char :: a :: b :: x :: y :: r' =>
            match unicode a b x y with
            | None => None
            | Some hi =>
                match pair hi r', r' with
                | Some cp, _ :: _ :: _ :: _ :: _ :: _ :: r2 =>
                    match parse_chars r2 with
                    | Some (t, r'') => Some (utf8 cp ++ t, r'')
                    | None => None
                    end
                | _, _ =>
                    match parse_chars r' with
                    | Some (t, r'') => Some (utf8 hi ++ t, r'')
                    | None => None
                    end
                end
            end
        | e :: r' =>
            match unescape e, parse_chars r' with
            | Some c', Some (t, r'') => Some (String c' t, r'')
            | _, _ => None
            end
        | [] => None
        end
      else if Nat.ltb n 32 then None
      else
        match parse_chars r with
        | Some (t, r') => Some (String c t, r')
        | None => None
        end
  end.

Section Composite.

(** The parser of one value, as the composite parsers call it. *)
Variable parse_one : list ascii -> option (value * list ascii).

(** The items of an array after its bracket, up to and including the
    closing bracket; [n] bounds their number. *)
Fixpoint parse_items (n : nat) (s : list ascii)
  : option (list value * list ascii) :=
  match n with
  | 0 => None
  | S n' =>
      match parse_one s with
      | None => None
      | Some (v, r) =>
          match skip_ws r with
          | ","%char :: r' =>
              match parse_items n' r' with
              | Some (vs, r'') => Some (v :: vs, r'')
              | None => None
              end
          | "]"%char :: r' => Some ([v], r')
          | _ => None
          end
      end
  end.

(** The members of an object after its brace. *)
Fixpoint parse_members (n : nat) (s : list ascii)
  : option (list (string * value) * list ascii) :=
  match n with
  | 0 => None
  | S n' =>
      match skip_ws s with
      | q :: r =>
          if negb (Nat.eqb (nat_of_ascii q) 34) then None
          else
            match parse_chars r with
            | None => None
            | Some (k, r1) =>
                match skip_ws r1 with
                | ":"%char :: r2 =>
                    match parse_one r2 with
                    | None => None
                    | Some (v, r3) =>
                        match skip_ws r3 with
                        | ","%char :: r4 =>
                            match parse_members n' r4 with
                            | Some (ms, r5) => Some ((k, v) :: ms, r5)
                            | None => None
                            end
                        | "}"%char :: r4 => Some ([(k, v)], r4)
                        | _ => None
                        end
                    end
                | _ => None
                end
            end
      | [] => None
      end
  end.

End Composite.

(** One value, with [fuel] bounding the nesting depth. *)
Fixpoint parse_value (fuel : nat) (s : list ascii)
  : option (value * list ascii) :=
  match fuel with
  | 0 => None
  | S fuel' =>
      match skip_ws s with
      | "n"%char :: "u"%char :: "l"%char :: "l"%char :: r => Some (VNull, r)
      | "t"%char :: "r"%char :: "u"%char :: "e"%char :: r =>
          Some (VBool true, r)
      | "f"%char :: "a"%char :: "l"%char :: "s"%char :: "e"%char :: r =>
          Some (VBool false, r)
      | "["%char :: r =>
          match skip_ws r with
          | "]"%char :: r' => Some (VArr [], r')
          | _ =>
              match parse_items (parse_value fuel') (List.length r) r with
              | Some (vs, r') => Some (VArr vs, r')
              | None => None
              end
          end
      | "{"%char :: r =>
          match skip_ws r with
          | "}"%char :: r' => Some (VObj [], r')
          | _ =>
              match parse_members (parse_value fuel') (List.length r) r with
              | Some (ms, r') => Some (VObj ms, r')
              | None => None
              end
          end
      | c :: r =>
          if Nat.eqb (nat_of_ascii c) 34 then
            match parse_chars r with
            | Some (t, r') => Some (VStr t, r')
            | None => None
            end
          else parse_number (c :: r)
      | [] => None
      end
  end.

(** [JSON.parse(text)], [None] standing for the SyntaxError it throws.
    The nesting depth of a text is at most its length, which is the
    fuel given.  An object is kept as the list of its members as
    written. *)
Definition parse (text : string) : option value :=
  let s := list_ascii_of_string text in
  match parse_value (S (List.length s)) s with
  | Some (v, r) =>
      match skip_ws r with
      | [] => Some v
      | _ :: _ => None
      end
  | None => None
  end.

End JSON.

(** ** The decorated function as a program

    A call of the decorated function is a chain of requests to its
    collaborators, each with the callback that continues the chain. *)

(** The release function that redis-lock hands to the task it runs. *)
Definition handle := nat.

(** What redis passes as the second argument of a [get] callback. *)
Inductive reply : Type :=
| RUndefined
| RNull
| RString (text : string).

Definition reply_value (r : reply) : value :=
  match r with
  | RUndefined => VUndefined
  | RNull => VNull
  | RString text => VStr text
  end.

(** What [cachedFunc] passes to its callback as data: a value, or
    something that [JSON.stringify] throws a TypeError on (a cyclic
    structure, or one with a BigInt in it). *)
Inductive datum : Type :=
| Data (v : value)
| Opaque.

Inductive prog : Type :=
| Return
    (* the callback at hand returns, nothing is left to do *)
| Raise (e : exn)
| RedisGet (key : string) (callback : value -> reply -> prog)
    (* redis.get(key, callback) *)
| RedisSet (key : string) (data : value) (mode : string) (ttl : value)
    (callback : value -> prog)
    (* redis.set(key, data, mode, ttl, callback) *)
| Lock (name : string) (timeout : value) (task : handle -> prog)
    (* lock(name, timeout, task) *)
| Release (release : handle) (next : prog)
    (* release(); next *)
| Apply (positional : list value) (callback : value -> datum -> prog)
    (* cachedFunc.apply(null, positional.concat([callback])) *)
| ApplyBare
    (* cachedFunc.apply(null, []) *)
| Call (f : nat) (err data : value) (next : prog).
    (* f(err, data); next, for a function f of the caller *)

(** [f(err, data)] for a value [f] received from the caller. *)
Definition call (f : value) (err data : value) : prog :=
  match f with
  | VFun id => Call id err data Return
  | _ => Raise TypeError
  end.

(** [if(release) { release(); }] followed by [next]. *)
Definition released (release : option handle) (next : prog) : prog :=
  match release with
  | Some h => Release h next
  | None => next
  end.

(** [async.waterfall([task1, task2], final)]: a task that passes an
    error to its callback ends the chain, and [final] gets the error
    with the other arguments of that callback; otherwise the next task
    gets them, and [final] gets [null] in front of the last task's. *)
Definition waterfall
    (task1 : (value -> value -> prog) -> prog)
    (task2 : value -> (value -> value -> option handle -> prog) -> prog)
    (final : value -> value -> option handle -> prog) : prog :=
  task1 (fun err cache =>
    if truthy err then final err cache None
    else
      task2 cache (fun err' cache' release =>
        if truthy err' then final err' cache' release
        else final VNull cache' release)).

Record options : Type := {
  o_key : string;
  o_ttl : value;
  o_lockTTL : value;   (* [VUndefined] when absent *)
  o_lock : value       (* [VUndefined] when absent *)
}.

Definition LOCK_TTL : value := VNum (60 * 1000).

(** [if(cache) { cache = JSON.parse(cache); }]: the new [cache], or
    [None] when [JSON.parse] throws. *)
Definition deserialize (cache : reply) : option value :=
  if truthy (reply_value cache) then
    match cache with
    | RString text => JSON.parse text
    | _ => Some (reply_value cache)
    end
  else Some (reply_value cache).

Section Cachify.

(** [options.redis] is the receiver of [RedisGet] and [RedisSet],
    [RedisLock(redis, 25)] the receiver of [Lock], and [cachedFunc]
    that of [Apply]. *)
Variable opts : options.

Definition cacheKey : string := o_key opts.
Definition lockKey : string := cacheKey ++ ":lock".
Definition ttl : value := o_ttl opts.
Definition lockTTL : value := js_or (o_lockTTL opts) LOCK_TTL.
Definition getLock : value :=
  match o_lock opts with
  | VUndefined => VBool true
  | v => v
  end.

Definition getCache
    (callback : value -> value -> option handle -> prog) : prog :=
  waterfall
    (fun cb =>
       RedisGet cacheKey (fun err cache =>
         match deserialize cache with
         | Some cache' => cb err cache'
         | None => Raise SyntaxError
         end))
    (fun cache cb =>
       if truthy cache || negb (truthy getLock) then cb VNull cache None
       else
         Lock lockKey lockTTL (fun release =>
           cb VNull cache (Some release)))
    (fun err cache release =>
       let rest := callback err cache release in
       if truthy err then released release rest else rest).

Definition setCache (data : value) (callback : value -> prog) : prog :=
  RedisSet cacheKey (JSON.stringify data) "EX" ttl callback.

(** [finish] of the returned function, closed over [callback] and
    [release]. *)
Definition finish (callback : value) (release : option handle)
    (err data : value) : prog :=
  released release (call callback err data).

(** The function stored in the last slot of [args].  With data that
    cannot be serialized, [JSON.stringify(data)] throws in [setCache]
    before [redis.set] is called. *)
Definition completion (callback : value) (release : option handle)
    (err : value) (data : datum) : prog :=
  if truthy err then finish callback release err VUndefined
  else
    match data with
    | Data data =>
        setCache data (fun err' => finish callback release err' data)
    | Opaque => Raise TypeError
    end.

(** [args[args.length-1] = k; cachedFunc.apply(null, args)].  An
    empty [args] has no last slot: the assignment to index [-1] adds
    no element, and [cachedFunc] gets no argument at all. *)
Definition cachedFunc_apply (args : list value)
    (k : value -> datum -> prog) : prog :=
  match args with
  | [] => ApplyBare
  | _ :: _ => Apply (removelast args) k
  end.

(** The function that [module.exports] returns, on the arguments of
    one call. *)
Definition cachify (arguments : list value) : prog :=
  let args := arguments in
  let callback := last args VUndefined in
  getCache (fun err cache release =>
    if truthy err || truthy cache then call callback err cache
    else cachedFunc_apply args (completion callback release)).

End Cachify.

(** ** One call against given collaborators *)

(** What [cachedFunc] does when it does not call back with a value:
    it throws before returning, or it calls back with data that cannot
    be serialized. *)
Inductive fault : Type :=
| Throws (e : exn)
| Unserializable (err : value).

(** Each collaborator is given by what it passes to the callback of a
    request, [None] when it never calls back; it calls back at most
    once, after the request has returned.  For a call of [cachedFunc]
    that is not answered with a value, [apply_fault] tells what happens
    instead, [None] when nothing does.  The redis client, the lock and
    the caller's callback do not throw. *)
Record world : Type := {
  on_get : string -> option (value * reply);
  on_set : string -> value -> string -> value -> option value;
  on_lock : string -> value -> option handle;
  on_apply : list value -> option (value * value);
  apply_fault : list value -> option fault
}.

(** One interaction: a request of the decorated function, or a
    callback made by a collaborator. *)
Inductive event : Type :=
| EvGet (key : string)
| EvGetReply (err : value) (cache : reply)
| EvLock (name : string) (timeout : value)
| EvAcquired (release : handle)
| EvRelease (release : handle)
| EvApply (positional : list value)
| EvResult (err data : value)
| EvOpaqueResult (err : value)
| EvSet (key : string) (data : value) (mode : string) (ttl : value)
| EvSetReply (err : value)
| EvCallback (f : nat) (err data : value).

(** How a call ends: the last callback returned, a collaborator still
    owes a callback that never comes, or an exception left the code. *)
Inductive ending : Type :=
| Returned
| Waiting
| Thrown (e : exn).

Definition run : Type := list event * ending.

Definition trace (r : run) : list event := fst r.
Definition outcome (r : run) : ending := snd r.

Definition emit (e : event) (k : run) : run := (e :: fst k, snd k).

Fixpoint exec (w : world) (p : prog) : run :=
  match p with
  | Return => ([], Returned)
  | Raise e => ([], Thrown e)
  | RedisGet key callback =>
      emit (EvGet key)
        match on_get w key with
        | Some (err, cache) =>
            emit (EvGetReply err cache) (exec w (callback err cache))
        | None => ([], Waiting)
        end
  | RedisSet key data mode ttl callback =>
      emit (EvSet key data mode ttl)
        match on_set w key data mode ttl with
        | Some err => emit (EvSetReply err) (exec w (callback err))
        | None => ([], Waiting)
        end
  | Lock name timeout task =>
      emit (EvLock name timeout)
        match on_lock w name timeout with
        | Some release => emit (EvAcquired release) (exec w (task release))
        | None => ([], Waiting)
        end
  | Release release next => emit (EvRelease release) (exec w next)
  | Apply positional callback =>
      emit (EvApply positional)
        match on_apply w positional with
        | Some (err, data) =>
            emit (EvResult err data) (exec w (callback err (Data data)))
        | None =>
            match apply_fault w positional with
            | Some (Throws e) => ([], Thrown e)
            | Some (Unserializable err) =>
                emit (EvOpaqueResult err) (exec w (callback err Opaque))
            | None => ([], Waiting)
            end
        end
  | ApplyBare =>
      ([EvApply []],
       match apply_fault w [] with
       | Some (Throws e) => Thrown e
       | _ => Waiting
       end)
  | Call f err data next => emit (EvCallback f err data) (exec w next)
  end.

(** ** Reading traces *)

Open Scope list_scope.

Definition is_callback (e : event) : bool :=
  match e with EvCallback _ _ _ => true | _ => false end.

Definition is_release (e : event) : bool :=
  match e with EvRelease _ => true | _ => false end.

Definition is_apply (e : event) : bool :=
  match e with EvApply _ => true | _ => false end.

Definition count (p : event -> bool) (t : list event) : nat :=
  List.length (filter p t).

(** The events around the recomputation when [release] is the handle
    held, if any. *)
Definition lock_events (o : options) (release : option handle)
  : list event :=
  match release with
  | Some h => [EvLock (lockKey o) (lockTTL o); EvAcquired h]
  | None => []
  end.

Definition release_events (release : option handle) : list event :=
  match release with
  | Some h => [EvRelease h]
  | None => []
  end.

(** The answer of the lock step for a call that found nothing:
    [Some None] when locking is off, [Some (Some h)] when the lock is
    granted with release function [h], [None] when it never is. *)
Definition lock_step (w : world) (o : options) : option (option handle) :=
  if truthy (getLock o) then
    match on_lock w (lockKey o) (lockTTL o) with
    | Some h => Some (Some h)
    | None => None
    end
  else Some None.

Definition after (t : list event) (r : run) : run := (t ++ fst r, snd r).

(** The recomputation, from the call of [cachedFunc] to the end, and
    the report to the caller. *)
Definition recompute (w : world) (o : options) (args : list value)
    (release : option handle) : run :=
  exec w (cachedFunc_apply args
            (completion o (last args VUndefined) release)).

Definition report (f : value) (err data : value) : run :=
  match f with
  | VFun id => ([EvCallback id err data], Returned)
  | _ => ([], Thrown TypeError)
  end.

(** A collaborator passed the error [e] to a callback of the call. *)
Definition handed_error (e : value) (t : list event) : Prop :=
  (exists cache, In (EvGetReply e cache) t) \/
  (exists data, In (EvResult e data) t) \/
  In (EvOpaqueResult e) t \/
  In (EvSetReply e) t.

(** The call came to [finish]: the computation reported an error, or
    the store answered the write. *)
Definition at_finish (e : event) : bool :=
  match e with
  | EvResult err _ | EvOpaqueResult err => truthy err
  | EvSetReply _ => true
  | _ => false
  end.

Definition finished (t : list event) : bool := existsb at_finish t.

(** [cachedFunc] neither throws nor reports data that cannot be
    serialized. *)
Definition faultless (w : world) : Prop :=
  forall positional, apply_fault w positional = None.

(** Every collaborator answers every request with one callback, and
    [cachedFunc] does so with data that can be serialized. *)
Definition answers (w : world) : Prop :=
  (forall key, on_get w key <> None) /\
  (forall key data mode ttl, on_set w key data mode ttl <> None) /\
  (forall name timeout, on_lock w name timeout <> None) /\
  (forall positional, on_apply w positional <> None).

(** What the store holds under the key, if anything, is a JSON
    text. *)
Definition entry_deserializes (w : world) (o : options) : Prop :=
  forall err cache,
    on_get w (o_key o) = Some (err, cache) -> deserialize cache <> None.


(** ** Sample collaborators *)

Module Sample.

(** Collaborators that answer every request the same way. *)
Definition answering (g : option (value * reply)) (s : option value)
    (l : option handle) (f : option (value * value)) : world :=
  {| on_get := fun _ => g;
     on_set := fun _ _ _ _ => s;
     on_lock := fun _ _ => l;
     on_apply := fun _ => f;
     apply_fault := fun _ => None |}.

(** Nothing cached, the lock granted, and a computation that goes
    wrong as [f] tells. *)
Definition failing (f : fault) : world :=
  {| on_get := fun _ => Some (VNull, RNull);
     on_set := fun _ _ _ _ => Some VNull;
     on_lock := fun _ _ => Some 1;
     on_apply := fun _ => None;
     apply_fault := fun _ => Some f |}.

Definition user7 : options :=
  {| o_key := "user:7"; o_ttl := VNum 30;
     o_lockTTL := VUndefined; o_lock := VUndefined |}.

Definition zero_lockTTL : options :=
  {| o_key := "user:7"; o_ttl := VNum 30;
     o_lockTTL := VNum 0; o_lock := VUndefined |}.

Definition ECONNRESET : value := VObj [("code", VStr "ECONNRESET")].

Definition profile : value := VObj [("name", VStr "Ada"); ("age", VNum 36)].

(** Nothing cached, everything works. *)
Definition fresh : world :=
  answering (Some (VNull, RNull)) (Some VNull) (Some 1)
    (Some (VNull, profile)).

(** Nothing cached, and the write fails. *)
Definition write_fails : world :=
  answering (Some (VNull, RNull)) (Some ECONNRESET) (Some 1)
    (Some (VNull, profile)).

Definition write_fails_trace : list event :=
  trace (exec write_fails (cachify user7 [VStr "ada"; VFun 1])).

(** The read fails. *)
Definition read_fails : world :=
  answering (Some (ECONNRESET, RUndefined)) (Some VNull) (Some 1)
    (Some (VNull, profile)).

(** The entry under the key is not JSON. *)
Definition corrupted : world :=
  answering (Some (VNull, RString "{bad")) (Some VNull) (Some 1)
    (Some (VNull, profile)).

(** The computation yields 0. *)
Definition yields_zero : world :=
  answering (Some (VNull, RNull)) (Some VNull) (Some 1)
    (Some (VNull, VNum 0)).

(** The entry under the key is the text written for 0. *)
Definition zero_cached : world :=
  answering (Some (VNull, RString "0")) (Some VNull) (Some 1)
    (Some (VNull, VNum 0)).

End Sample.

(** ** Several calls at once

    The calls of one decorated function run interleaved: a call
    advances when a collaborator answers its pending request.  The
    store and the computation may answer anything; the lock is
    exclusive: it is granted only while nobody holds it, and held
    until its release function is called or its lifetime [lockTTL]
    runs out.  Durations are not modelled: when the lifetime of a held
    lock runs out, against the other steps, is for the schedule to
    say. *)

Module Concurrent.

(** Where one call stands. *)
Inductive thread : Type :=
| Ready (p : prog)
    (* the request at the head of [p] is pending, or [p] is over *)
| Computing (callback : value -> datum -> prog)
    (* [cachedFunc] is running and holds [callback] *)
| Orphan.
    (* [cachedFunc] is running and was given no callback *)

Record system : Type := {
  holder : string -> option handle;
  threads : list thread
}.

(** The answer that lets a call advance. *)
Inductive answer : Type :=
| GetAnswer (err : value) (cache : reply)
| SetAnswer (err : value)
| Result (err data : value)
| OpaqueResult (err : value)
    (* [cachedFunc] calls back with data that cannot be serialized *)
| Throw (e : exn)
    (* [cachedFunc] throws instead of returning *)
| Expire (name : string)
    (* the lifetime of the lock held under [name] runs out *)
| Go.

Fixpoint update (i : nat) (t : thread) (l : list thread) : list thread :=
  match l, i with
  | [], _ => []
  | _ :: r, 0 => t :: r
  | x :: r, S i' => x :: update i' t r
  end.

Definition grant (name : string) (h : handle)
    (held : string -> option handle) : string -> option handle :=
  fun n => if (n =? name)%string then Some h else held n.

Definition free (h : handle) (held : string -> option handle)
  : string -> option handle :=
  fun n =>
    match held n with
    | Some h' => if Nat.eqb h' h then None else Some h'
    | None => None
    end.

Definition expire (name : string) (held : string -> option handle)
  : string -> option handle :=
  fun n => if (n =? name)%string then None else held n.

Definition is_expire (a : answer) : bool :=
  match a with
  | Expire _ => true
  | _ => false
  end.

(** No lock expires while held. *)
Definition no_expiry (schedule : list (nat * answer)) : bool :=
  forallb (fun x => negb (is_expire (snd x))) schedule.

Definition computing (t : thread) : bool :=
  match t with
  | Computing _ | Orphan => true
  | Ready _ => false
  end.

(** Call number [i] advances on answer [a]; the release function
    that the lock hands to call [i] is [i] itself.  A release function
    frees the lock only while its own call holds it.  The expiry of a
    lock is a step of no call in particular. *)
Definition step (s : system) (i : nat) (a : answer) : option system :=
  let become t := Some {| holder := holder s;
                          threads := update i t (threads s) |} in
  match a with
  | Expire name =>
      match holder s name with
      | Some _ => Some {| holder := expire name (holder s);
                          threads := threads s |}
      | None => None
      end
  | _ =>
      match nth_error (threads s) i, a with
      | Some (Ready (RedisGet _ callback)), GetAnswer err cache =>
          become (Ready (callback err cache))
      | Some (Ready (RedisSet _ _ _ _ callback)), SetAnswer err =>
          become (Ready (callback err))
      | Some (Ready (Lock name _ task)), Go =>
          match holder s name with
          | None =>
              Some {| holder := grant name i (holder s);
                      threads := update i (Ready (task i)) (threads s) |}
          | Some _ => None
          end
      | Some (Ready (Release h next)), Go =>
          Some {| holder := free h (holder s);
                  threads := update i (Ready next) (threads s) |}
      | Some (Ready (Apply _ callback)), Go => become (Computing callback)
      | Some (Ready (Apply _ _)), Throw e => become (Ready (Raise e))
      | Some (Ready ApplyBare), Go => become Orphan
      | Some (Ready ApplyBare), Throw e => become (Ready (Raise e))
      | Some (Computing callback), Result err data =>
          become (Ready (callback err (Data data)))
      | Some (Computing callback), OpaqueResult err =>
          become (Ready (callback err Opaque))
      | Some (Ready (Call _ _ _ next)), Go => become (Ready next)
      | _, _ => None
      end
  end.

Fixpoint play (schedule : list (nat * answer)) (s : system)
  : option system :=
  match schedule with
  | [] => Some s
  | (i, a) :: rest =>
      match step s i a with
      | Some s' => play rest s'
      | None => None
      end
  end.

(** The calls with arguments [calls], none started yet, the lock
    free. *)
Definition start (o : options) (calls : list (list value)) : system :=
  {| holder := fun _ => None;
     threads := map (fun args => Ready (cachify o args)) calls |}.

(** [guarded o held p]: from [p] on, with [held] the release function
    in hand if any, every request for the lock is for [lockKey o]
    and made with no release function in hand, every release is of
    the function in hand, and [cachedFunc] is only called with one in
    hand. *)
Fixpoint guarded (o : options) (held : option handle) (p : prog) : Prop :=
  match p with
  | Return | Raise _ => True
  | RedisGet _ callback =>
      forall err cache, guarded o held (callback err cache)
  | RedisSet _ _ _ _ callback =>
      forall err, guarded o held (callback err)
  | Lock name _ task =>
      held = None /\ name = lockKey o /\
      forall h, guarded o (Some h) (task h)
  | Release h next => held = Some h /\ guarded o None next
  | Apply _ callback =>
      held <> None /\ forall err data, guarded o held (callback err data)
  | ApplyBare => held <> None
  | Call _ _ _ next => guarded o held next
  end.

(** Call [i] is consistent with the holder [lk] of the lock. *)
Definition thread_ok (o : options) (lk : option handle) (i : nat)
    (t : thread) : Prop :=
  match t with
  | Ready p =>
      (lk = Some i /\ guarded o (Some i) p) \/
      (lk <> Some i /\ guarded o None p)
  | Computing callback =>
      lk = Some i /\ forall err data, guarded o (Some i) (callback err data)
  | Orphan => lk = Some i
  end.

Definition consistent (o : options) (s : system) : Prop :=
  forall i t,
    nth_error (threads s) i = Some t ->
    thread_ok o (holder s (lockKey o)) i t.

(** What call [i] keeps to even when locks expire: it goes on as one
    that was handed a release function, or it does not hold the lock
    and goes on as one that has none. *)
Definition thread_fits (o : options) (lk : option handle) (i : nat)
    (t : thread) : Prop :=
  match t with
  | Ready p =>
      guarded o (Some i) p \/ (lk <> Some i /\ guarded o None p)
  | Computing callback =>
      forall err data, guarded o (Some i) (callback err data)
  | Orphan => True
  end.

Definition coherent (o : options) (s : system) : Prop :=
  forall i t,
    nth_error (threads s) i = Some t ->
    thread_fits o (holder s (lockKey o)) i t.

(** Two calls that find nothing; the first takes the lock and
    computes for longer than the lock lives; the second, which was
    waiting for the lock, then gets it and computes as well. *)
Definition outlasted : list (nat * answer) :=
  [(0, GetAnswer VNull RNull); (0, Go); (0, Go);
   (1, GetAnswer VNull RNull);
   (0, Expire "user:7:lock");
   (1, Go); (1, Go)].

(** Two calls, of which the second took the lock and is computing
    while the first waits for the lock. *)
Definition two_calls : list (list value) :=
  [[VStr "ada"; VFun 1]; [VStr "bob"; VFun 2]].

Definition second_first : list (nat * answer) :=
  [(0, GetAnswer VNull RNull); (1, GetAnswer VNull RNull); (1, Go); (1, Go)].

Definition second_computing : system :=
  match play second_first (start Sample.user7 two_calls) with
  | Some s => s
  | None => start Sample.user7 two_calls
  end.

End Concurrent.

(** ** More to read in traces *)

Definition is_get (e : event) : bool :=
  match e with EvGet _ => true | _ => false end.

Definition is_set (e : event) : bool :=
  match e with EvSet _ _ _ _ => true | _ => false end.

Definition touches_lock (e : event) : bool :=
  match e with
  | EvLock _ _ | EvAcquired _ | EvRelease _ => true
  | _ => false
  end.

(** Reading a trace from the left with [held] telling whether a
    release function is in hand: every call of [cachedFunc] comes with
    one in hand. *)
Fixpoint computes_under_lock (held : bool) (t : list event) : bool :=
  match t with
  | [] => true
  | EvAcquired _ :: rest => computes_under_lock true rest
  | EvRelease _ :: rest => computes_under_lock false rest
  | EvApply _ :: rest => held && computes_under_lock held rest
  | _ :: rest => computes_under_lock held rest
  end.

(** ** [module.exports.invalidate] *)

Module Invalidate.

(** What [redis.del] is given as callback. *)
Inductive handler : Type :=
| Noop                      (* function() {} *)
| Given (callback : value).

(** [callback || function() {}]. *)
Definition or_noop (callback : value) : handler :=
  if truthy callback then Given callback else Noop.

(** The request [redis.del(key, callback)]. *)
Inductive request : Type :=
| Del (key : string) (callback : handler).

(** [invalidate(key, redis, callback)], [redis] being the receiver of
    the request. *)
Definition invalidate (key : string) (callback : value) : request :=
  let callback := or_noop callback in
  Del key callback.

Inductive del_event : Type :=
| EvDel (key : string)
| EvDelReply (err reply : value)
| EvDelCallback (f : nat) (err reply : value).

(** The redis client calls what it was given with its error and its
    reply. *)
Definition deliver (h : handler) (err reply : value)
  : list del_event * ending :=
  match h with
  | Noop => ([], Returned)
  | Given (VFun id) => ([EvDelCallback id err reply], Returned)
  | Given _ => ([], Thrown TypeError)
  end.

(** One invalidation against a client that answers a [del] of [key]
    with [on_del key], or never when that is [None]. *)
Definition run_request (on_del : string -> option (value * value))
    (r : request) : list del_event * ending :=
  match r with
  | Del key h =>
      match on_del key with
      | Some (err, reply) =>
          let '(t, e) := deliver h err reply in
          (EvDel key :: EvDelReply err reply :: t, e)
      | None => ([EvDel key], Waiting)
      end
  end.

End Invalidate.

(** ** Values that JSON carries *)

(** The integers that a JavaScript number holds exactly. *)
Definition safe_integer (n : Z) : bool :=
  (Z.abs n <=? 9007199254740991)%Z.

(** Values made of [null], booleans, safe integers, strings, arrays
    and objects only: no [undefined] and no function anywhere. *)
Fixpoint plain (v : value) : bool :=
  match v with
  | VUndefined | VFun _ | VDec _ _ | VNaN => false
  | VNull | VBool _ | VStr _ => true
  | VNum n => safe_integer n
  | VArr items => forallb plain items
  | VObj fields => forallb (fun f => plain (snd f)) fields
  end.

(** The nesting depth of a value. *)
Fixpoint height (v : value) : nat :=
  match v with
  | VArr items => S (fold_right (fun x h => Nat.max (height x) h) 0 items)
  | VObj fields =>
      S (fold_right (fun f h => Nat.max (height (snd f)) h) 0 fields)
  | _ => 0
  end.

(** What may follow a value inside a text: nothing, a comma or a
    closing bracket or brace. *)
Definition delimited (rest : list ascii) : Prop :=
  match rest with
  | [] => True
  | c :: _ => c = ","%char \/ c = "]"%char \/ c = "}"%char
  end.

(** What may follow the digits of a number: no further digit. *)
Definition no_digit (rest : list ascii) : Prop :=
  match rest with
  | [] => True
  | c :: _ => JSON.digit_of c = None
  end.

(** The text of an item of an array or of the value of a member. *)
Definition item_text (x : value) : string :=
  match JSON.text x with
  | Some t => t
  | None => "null"
  end.

Definition member_text (f : string * value) : string :=
  (JSON.quote (fst f) ++ ":" ++ item_text (snd f))%string.

(** The characters a value's text can start with. *)
Definition value_start (c : ascii) : bool :=
  let n := nat_of_ascii c in
  Nat.eqb n 110 || Nat.eqb n 116 || Nat.eqb n 102 || Nat.eqb n 45 ||
  (Nat.leb 48 n && Nat.leb n 57) || Nat.eqb n 34 || Nat.eqb n 91 ||
  Nat.eqb n 123.

(** Two calls, of which the first took the lock and is about to
    compute. *)
Definition first_holds : Concurrent.system :=
  match
    Concurrent.play
      [(0, Concurrent.GetAnswer VNull RNull); (0, Concurrent.Go)]
      (Concurrent.start Sample.user7 Concurrent.two_calls)
  with
  | Some s => s
  | None => Concurrent.start Sample.user7 Concurrent.two_calls
  end.

Definition is_lock_request (p : prog) : bool :=
  match p with
  | Lock _ _ _ => true
  | _ => false
  end.

(** ** The shape of a call *)

Lemma last_arg (positional : list value) (f : value) :
  last (positional ++ [f]) VUndefined = f.
Proof. apply last_last. Qed.

Lemma truthy_lockTTL (o : options) : truthy (lockTTL o) = true.
Proof.
  unfold lockTTL, js_or.
  destruct (truthy (o_lockTTL o)) eqn:E; [exact E | reflexivity].
Qed.

Lemma exec_call (w : world) (f err data : value) :
  exec w (call f err data) = report f err data.
Proof. destruct f; reflexivity. Qed.

Lemma exec_released (w : world) (release : option handle) (p : prog) :
  exec w (released release p) = after (release_events release) (exec w p).
Proof.
  unfold after. destruct release; cbn [released exec release_events].
  - reflexivity.
  - destruct (exec w p); reflexivity.
Qed.

(** The lookup, up to the point where the call either reports what it
    read or goes on to recompute. *)
Lemma exec_lookup (w : world) (o : options) (args : list value) :
  exec w (cachify o args) =
  emit (EvGet (o_key o))
    match on_get w (o_key o) with
    | None => ([], Waiting)
    | Some (err, cache) =>
        emit (EvGetReply err cache)
          match deserialize cache with
          | None => ([], Thrown SyntaxError)
          | Some c =>
              if truthy err then report (last args VUndefined) err c
              else if truthy c then report (last args VUndefined) VNull c
              else
                match lock_step w o with
                | None => ([EvLock (lockKey o) (lockTTL o)], Waiting)
                | Some release =>
                    after (lock_events o release)
                      (recompute w o args release)
                end
          end
    end.
Proof.
  unfold cachify, getCache, waterfall, lock_step, cacheKey.
  cbn [exec]. f_equal.
  destruct (on_get w (o_key o)) as [[err cache]|]; [|reflexivity].
  f_equal.
  destruct (deserialize cache) as [c|]; [|reflexivity].
  destruct (truthy err) eqn:Eerr; cbn [released orb].
  - apply exec_call.
  - destruct (truthy c) eqn:Ec; cbn [orb truthy].
    + apply exec_call.
    + destruct (truthy (getLock o)); cbn [negb].
      * cbn [exec].
        destruct (on_lock w (lockKey o) (lockTTL o)) as [h|]; reflexivity.
      * unfold after, recompute.
        destruct (exec _ _); reflexivity.
Qed.

Lemma exec_recompute (w : world) (o : options) (args : list value)
    (release : option handle) :
  recompute w o args release =
  emit (EvApply (removelast args))
    match args with
    | [] =>
        ([], match apply_fault w [] with
             | Some (Throws e) => Thrown e
             | _ => Waiting
             end)
    | _ :: _ =>
        match on_apply w (removelast args) with
        | None =>
            match apply_fault w (removelast args) with
            | Some (Throws e) => ([], Thrown e)
            | Some (Unserializable err) =>
                emit (EvOpaqueResult err)
                  (if truthy err then
                     after (release_events release)
                       (report (last args VUndefined) err VUndefined)
                   else ([], Thrown TypeError))
            | None => ([], Waiting)
            end
        | Some (err, data) =>
            emit (EvResult err data)
              (if truthy err then
                 after (release_events release)
                   (report (last args VUndefined) err VUndefined)
               else
                 emit (EvSet (o_key o) (JSON.stringify data) "EX" (o_ttl o))
                   match
                     on_set w (o_key o) (JSON.stringify data) "EX" (o_ttl o)
                   with
                   | None => ([], Waiting)
                   | Some err' =>
                       emit (EvSetReply err')
                         (after (release_events release)
                            (report (last args VUndefined) err' data))
                   end)
        end
    end.
Proof.
  unfold recompute, cachedFunc_apply.
  destruct args as [|a l]; [reflexivity|].
  cbn [exec]. f_equal.
  unfold completion, setCache, finish, cacheKey, ttl.
  destruct (on_apply w _) as [[err data]|].
  - f_equal. destruct (truthy err).
    + rewrite exec_released, exec_call. reflexivity.
    + cbn [exec]. f_equal.
      destruct (on_set w _ _ _ _) as [err'|]; [|reflexivity].
      rewrite exec_released, exec_call. reflexivity.
  - destruct (apply_fault w _) as [[e|err]|]; [reflexivity| |reflexivity].
    f_equal. destruct (truthy err); [|reflexivity].
    rewrite exec_released, exec_call. reflexivity.
Qed.

(** ** What a call does *)

Ltac lookup Hget Hdes :=
  rewrite exec_lookup, Hget, Hdes.

(** A cached value that is truthy once deserialized is reported at
    once. *)
Lemma truthy_hit_short_circuits (w : world) (o : options)
    (positional : list value) (cb : nat) (err : value) (cache : reply)
    (c : value) :
  on_get w (o_key o) = Some (err, cache) ->
  truthy err = false ->
  deserialize cache = Some c ->
  truthy c = true ->
  exec w (cachify o (positional ++ [VFun cb])) =
  ([EvGet (o_key o); EvGetReply err cache; EvCallback cb VNull c], Returned).
Proof.
  intros Hget Herr Hdes Hc.
  lookup Hget Hdes. rewrite Herr, Hc, last_arg. reflexivity.
Qed.

(** The run of a call that finds nothing, computes and gets an answer
    to its write. *)
Lemma run_of_write (w : world) (o : options) (positional : list value)
    (cb : nat) (gerr : value) (cache : reply) (c : value)
    (release : option handle) (cerr data serr : value) :
  on_get w (o_key o) = Some (gerr, cache) ->
  truthy gerr = false ->
  deserialize cache = Some c ->
  truthy c = false ->
  lock_step w o = Some release ->
  on_apply w positional = Some (cerr, data) ->
  truthy cerr = false ->
  on_set w (o_key o) (JSON.stringify data) "EX" (o_ttl o) = Some serr ->
  exec w (cachify o (positional ++ [VFun cb])) =
  ([EvGet (o_key o); EvGetReply gerr cache] ++
   lock_events o release ++
   [EvApply positional; EvResult cerr data;
    EvSet (o_key o) (JSON.stringify data) "EX" (o_ttl o); EvSetReply serr] ++
   release_events release ++
   [EvCallback cb serr data],
   Returned).
Proof.
  intros Hget Hgerr Hdes Hc Hlock Hf Hcerr Hset.
  lookup Hget Hdes. rewrite Hgerr, Hc, Hlock, exec_recompute.
  rewrite removelast_last, last_arg, Hf, Hcerr, Hset.
  destruct positional; destruct release; reflexivity.
Qed.

(** C1, as the code has it.  When the lookup finds nothing, the
    computation succeeds with result [R] and the write of [R] fails
    with error [E], the trailing callback is invoked exactly once, with
    [(E, R)]: the error comes with the computed value, not with
    [undefined]. *)
Theorem write_error_reports_error_and_value (w : world) (o : options)
    (positional : list value) (cb : nat) (gerr : value) (cache : reply)
    (c : value) (release : option handle) (cerr R E : value) :
  on_get w (o_key o) = Some (gerr, cache) ->
  truthy gerr = false ->
  deserialize cache = Some c ->
  truthy c = false ->
  lock_step w o = Some release ->
  on_apply w positional = Some (cerr, R) ->
  truthy cerr = false ->
  on_set w (o_key o) (JSON.stringify R) "EX" (o_ttl o) = Some E ->
  truthy E = true ->
  filter is_callback (trace (exec w (cachify o (positional ++ [VFun cb]))))
  = [EvCallback cb E R].
Proof.
  intros Hget Hgerr Hdes Hc Hlock Hf Hcerr Hset _.
  rewrite (run_of_write w o positional cb gerr cache c release cerr R E)
    by assumption.
  unfold trace, fst.
  destruct release; reflexivity.
Qed.

Lemma write_error_reports_error_and_value_witness :
  filter is_callback
    (trace (exec Sample.write_fails
              (cachify Sample.user7 [VStr "ada"; VFun 1])))
  = [EvCallback 1 Sample.ECONNRESET Sample.profile].
Proof.
  apply (write_error_reports_error_and_value Sample.write_fails Sample.user7
           [VStr "ada"] 1 VNull RNull VNull (Some 1) VNull);
    reflexivity.
Defined.

(** C1, as the claim has it, fails: with the write failing after a
    successful computation, the callback is not invoked with
    [(E, undefined)]; its second argument is the computed value. *)
Lemma write_error_does_not_hide_value :
  In (EvResult VNull Sample.profile) Sample.write_fails_trace /\
  In (EvSetReply Sample.ECONNRESET) Sample.write_fails_trace /\
  In (EvCallback 1 Sample.ECONNRESET Sample.profile)
    Sample.write_fails_trace /\
  ~ In (EvCallback 1 Sample.ECONNRESET VUndefined) Sample.write_fails_trace.
Proof.
  vm_compute Sample.write_fails_trace.
  repeat split; [cbn; tauto ..|].
  cbn. intros H.
  repeat (destruct H as [H|H]; [discriminate H|]).
  exact H.
Qed.

(** The results that are falsy are stored as texts that read back as
    the same falsy values. *)
Example falsy_results_read_back :
  map (fun v => (JSON.stringify v, truthy v))
    [VNum 0; VBool false; VNull; VStr ""]
  = [(VStr "0", false); (VStr "false", false); (VStr "null", false);
     (VStr (String JSON.dquote (String JSON.dquote "")), false)] /\
  map JSON.parse
    ["0"; "false"; "null"; String JSON.dquote (String JSON.dquote "")]
  = [Some (VNum 0); Some (VBool false); Some VNull; Some (VStr "")].
Proof. split; reflexivity. Qed.

(** C2 at the entry the decorator writes for the result 0.  A first
    call that finds nothing and computes 0 stores the text ["0"] under
    the key; a later call that reads this text back takes the lock and
    runs the computation again instead of reporting the cached 0. *)
Theorem falsy_entry_is_recomputed :
  exec Sample.yields_zero (cachify Sample.user7 [VStr "ada"; VFun 1]) =
  ([EvGet "user:7"; EvGetReply VNull RNull;
    EvLock "user:7:lock" (VNum 60000); EvAcquired 1;
    EvApply [VStr "ada"]; EvResult VNull (VNum 0);
    EvSet "user:7" (VStr "0") "EX" (VNum 30); EvSetReply VNull;
    EvRelease 1; EvCallback 1 VNull (VNum 0)], Returned)
  /\
  exec Sample.zero_cached (cachify Sample.user7 [VStr "ada"; VFun 1]) =
  ([EvGet "user:7"; EvGetReply VNull (RString "0");
    EvLock "user:7:lock" (VNum 60000); EvAcquired 1;
    EvApply [VStr "ada"]; EvResult VNull (VNum 0);
    EvSet "user:7" (VStr "0") "EX" (VNum 30); EvSetReply VNull;
    EvRelease 1; EvCallback 1 VNull (VNum 0)], Returned).
Proof. split; vm_compute; reflexivity. Qed.

(** C7.  When the store's [get] passes an error to its callback, the
    call consists of the read and of one invocation of the trailing
    callback with that error as first argument: no lock is requested,
    nothing is released and the computation is not called.  (The value
    that comes with the error, if any, is deserialized first, as on
    every read.) *)
Theorem read_error_aborts (w : world) (o : options)
    (positional : list value) (cb : nat) (err : value) (cache : reply)
    (c : value) :
  on_get w (o_key o) = Some (err, cache) ->
  truthy err = true ->
  deserialize cache = Some c ->
  exec w (cachify o (positional ++ [VFun cb])) =
  ([EvGet (o_key o); EvGetReply err cache; EvCallback cb err c], Returned).
Proof.
  intros Hget Herr Hdes.
  lookup Hget Hdes. rewrite Herr, last_arg. reflexivity.
Qed.

Lemma read_error_aborts_witness :
  exec Sample.read_fails (cachify Sample.user7 ([VStr "ada"] ++ [VFun 1])) =
  ([EvGet "user:7"; EvGetReply Sample.ECONNRESET RUndefined;
    EvCallback 1 Sample.ECONNRESET VUndefined], Returned).
Proof.
  apply (read_error_aborts Sample.read_fails Sample.user7 [VStr "ada"] 1
           Sample.ECONNRESET RUndefined VUndefined);
    reflexivity.
Defined.

(** C6.  On the successful recomputation path (nothing found, the
    computation succeeds with [R], the write is acknowledged without
    error) the events come in this order: the [set] request and the
    store's acknowledgement, then the release of the lock if one is
    held, then, last, the trailing callback. *)
Theorem write_then_release_then_callback (w : world) (o : options)
    (positional : list value) (cb : nat) (gerr : value) (cache : reply)
    (c : value) (release : option handle) (cerr R serr : value) :
  on_get w (o_key o) = Some (gerr, cache) ->
  truthy gerr = false ->
  deserialize cache = Some c ->
  truthy c = false ->
  lock_step w o = Some release ->
  on_apply w positional = Some (cerr, R) ->
  truthy cerr = false ->
  on_set w (o_key o) (JSON.stringify R) "EX" (o_ttl o) = Some serr ->
  truthy serr = false ->
  exists before,
    count is_release before = 0 /\
    count is_callback before = 0 /\
    trace (exec w (cachify o (positional ++ [VFun cb]))) =
    before ++
    [EvSet (o_key o) (JSON.stringify R) "EX" (o_ttl o); EvSetReply serr] ++
    release_events release ++
    [EvCallback cb serr R].
Proof.
  intros Hget Hgerr Hdes Hc Hlock Hf Hcerr Hset _.
  exists ([EvGet (o_key o); EvGetReply gerr cache] ++
          lock_events o release ++ [EvApply positional; EvResult cerr R]).
  rewrite (run_of_write w o positional cb gerr cache c release cerr R serr)
    by assumption.
  unfold trace, fst.
  destruct release; repeat split.
Qed.

Lemma write_then_release_then_callback_witness :
  exists before,
    count is_release before = 0 /\
    count is_callback before = 0 /\
    trace (exec Sample.fresh (cachify Sample.user7 ([VStr "ada"] ++ [VFun 1])))
    = before ++
      [EvSet "user:7" (JSON.stringify Sample.profile) "EX" (VNum 30);
       EvSetReply VNull] ++
      release_events (Some 1) ++
      [EvCallback 1 VNull Sample.profile].
Proof.
  apply (write_then_release_then_callback Sample.fresh Sample.user7
           [VStr "ada"] 1 VNull RNull VNull (Some 1) VNull Sample.profile
           VNull);
    reflexivity.
Defined.

(** C4.  When the lookup finds nothing (and the lock, if locking is
    on, is granted), the computation is called exactly once, with the
    positional arguments of the call; and when it succeeds with [R],
    the serialization of [R] is written under the key with ["EX"] and
    [ttl] before any invocation of the trailing callback. *)
Theorem miss_computes_once_and_stores (w : world) (o : options)
    (positional : list value) (cb : nat) (gerr : value) (cache : reply)
    (c : value) (release : option handle) :
  on_get w (o_key o) = Some (gerr, cache) ->
  truthy gerr = false ->
  deserialize cache = Some c ->
  truthy c = false ->
  lock_step w o = Some release ->
  filter is_apply (trace (exec w (cachify o (positional ++ [VFun cb]))))
  = [EvApply positional] /\
  forall cerr R,
    on_apply w positional = Some (cerr, R) ->
    truthy cerr = false ->
    exists before rest,
      trace (exec w (cachify o (positional ++ [VFun cb]))) =
      before ++
      EvSet (o_key o) (JSON.stringify R) "EX" (o_ttl o) :: rest /\
      count is_callback before = 0.
Proof.
  intros Hget Hgerr Hdes Hc Hlock.
  lookup Hget Hdes. rewrite Hgerr, Hc, Hlock, exec_recompute.
  rewrite removelast_last, last_arg.
  assert (Hargs : exists a l, positional ++ [VFun cb] = a :: l)
    by (destruct positional; cbn; eauto).
  destruct Hargs as (a & l & ->).
  split.
  - destruct (on_apply w positional) as [[cerr R]|].
    + destruct (truthy cerr).
      * destruct release; reflexivity.
      * destruct (on_set w _ _ _ _); destruct release; reflexivity.
    + destruct (apply_fault w positional) as [[e|err]|];
        [|destruct (truthy err)|]; destruct release; reflexivity.
  - intros cerr R Hf Hcerr. rewrite Hf, Hcerr.
    exists ([EvGet (o_key o); EvGetReply gerr cache] ++
            lock_events o release ++ [EvApply positional; EvResult cerr R]).
    destruct (on_set w _ _ _ _) as [serr|].
    + exists ([EvSetReply serr] ++ release_events release ++
              [EvCallback cb serr R]).
      destruct release; split; reflexivity.
    + exists []. destruct release; split; reflexivity.
Qed.

Lemma miss_computes_once_and_stores_witness :
  filter is_apply
    (trace (exec Sample.fresh (cachify Sample.user7 ([VStr "ada"] ++ [VFun 1]))))
  = [EvApply [VStr "ada"]] /\
  forall cerr R,
    on_apply Sample.fresh [VStr "ada"] = Some (cerr, R) ->
    truthy cerr = false ->
    exists before rest,
      trace (exec Sample.fresh
               (cachify Sample.user7 ([VStr "ada"] ++ [VFun 1]))) =
      before ++
      EvSet "user:7" (JSON.stringify R) "EX" (VNum 30) :: rest /\
      count is_callback before = 0.
Proof.
  apply (miss_computes_once_and_stores Sample.fresh Sample.user7
           [VStr "ada"] 1 VNull RNull VNull (Some 1));
    reflexivity.
Defined.

(** Every way a call can go: one case for each answer of each
    collaborator asked. *)
Ltac fork :=
  match goal with
  | |- context [match on_get ?w ?k with _ => _ end] =>
      destruct (on_get w k) as [[? ?]|] eqn:?
  | |- context [match deserialize ?c with _ => _ end] =>
      destruct (deserialize c) eqn:?
  | |- context [if truthy ?v then _ else _] =>
      destruct (truthy v) eqn:?
  | |- context [match lock_step ?w ?o with _ => _ end] =>
      destruct (lock_step w o) as [[?|]|] eqn:?
  | |- context [recompute _ _ _ _] =>
      rewrite exec_recompute
  | |- context [match on_apply ?w ?a with _ => _ end] =>
      destruct (on_apply w a) as [[? ?]|] eqn:?
  | |- context [match apply_fault ?w ?a with _ => _ end] =>
      destruct (apply_fault w a) as [[?|?]|] eqn:?
  | |- context [match on_set ?w ?k ?d ?m ?t with _ => _ end] =>
      destruct (on_set w k d m t) eqn:?
  | |- context [report ?f _ _] =>
      is_var f; destruct f
  end.

Ltac all_paths args :=
  rewrite exec_lookup;
  repeat fork;
  let callback := fresh "callback" in
  let positional := fresh "positional" in
  remember (last args VUndefined) as callback;
  remember (removelast args) as positional;
  try destruct args;
  repeat fork;
  cbn [emit after report trace outcome fst snd app
       lock_events release_events].

(** Membership in a trace that is written out. *)
Ltac in_trace H :=
  cbn [In] in H;
  repeat match type of H with
         | _ \/ _ => destruct H as [H|H]
         end;
  try discriminate H; try contradiction H.

Ltac find_event :=
  cbn [In]; repeat first [left; reflexivity | right].

Ltac settle H :=
  cbn [finished existsb at_finish orb] in H;
  repeat match goal with
         | E : truthy _ = _ |- _ => rewrite E in H
         end;
  cbn [orb] in H.

(** C5, as the code has it.  In a call that comes to [finish] (the
    computation reported an error, or it reported a result and the
    store answered the write, with or without error), a release
    function that the lock handed over is called exactly once, and
    this is the first of all releases and trailing-callback
    invocations of the call.  In a call that does not come to
    [finish] nothing is released, and neither is anything when the
    lock handed nothing over. *)
Theorem release_once_on_exit_paths (w : world) (o : options)
    (args : list value) :
  (forall h,
     In (EvAcquired h) (trace (exec w (cachify o args))) ->
     finished (trace (exec w (cachify o args))) = true ->
     exists rest,
       filter (fun e => is_release e || is_callback e)
         (trace (exec w (cachify o args))) = EvRelease h :: rest /\
       count is_release rest = 0) /\
  (finished (trace (exec w (cachify o args))) = false ->
   count is_release (trace (exec w (cachify o args))) = 0) /\
  ((forall h, ~ In (EvAcquired h) (trace (exec w (cachify o args)))) ->
   count is_release (trace (exec w (cachify o args))) = 0).
Proof.
  all_paths args.
  all: split;
    [ intros held Hin Hfin; in_trace Hin; injection Hin as <-;
      settle Hfin;
      first [ discriminate Hfin | eexists; split; reflexivity ]
    | split;
      [ intros Hfin; settle Hfin;
        first [ reflexivity | discriminate Hfin ]
      | intros Hno;
        first [ reflexivity | exfalso; eapply Hno; find_event ] ] ].
Qed.

Lemma release_once_on_exit_paths_witness :
  exists rest,
    filter (fun e => is_release e || is_callback e)
      (trace (exec Sample.write_fails
                (cachify Sample.user7 [VStr "ada"; VFun 1])))
    = EvRelease 1 :: rest /\
    count is_release rest = 0.
Proof.
  apply (proj1 (release_once_on_exit_paths Sample.write_fails Sample.user7
                  [VStr "ada"; VFun 1]) 1).
  - vm_compute. tauto.
  - vm_compute. reflexivity.
Defined.

(** C5, as the claim has it, fails: after the lock handed over its
    release function, a computation that throws, or that reports a
    result which [JSON.stringify] rejects, ends the call by an
    exception, and the release function is never called. *)
Lemma exception_keeps_lock :
  exec (Sample.failing (Throws (Other Sample.ECONNRESET)))
    (cachify Sample.user7 [VStr "ada"; VFun 1]) =
  ([EvGet "user:7"; EvGetReply VNull RNull;
    EvLock "user:7:lock" (VNum 60000); EvAcquired 1;
    EvApply [VStr "ada"]], Thrown (Other Sample.ECONNRESET))
  /\
  exec (Sample.failing (Unserializable VNull))
    (cachify Sample.user7 [VStr "ada"; VFun 1]) =
  ([EvGet "user:7"; EvGetReply VNull RNull;
    EvLock "user:7:lock" (VNum 60000); EvAcquired 1;
    EvApply [VStr "ada"]; EvOpaqueResult VNull], Thrown TypeError).
Proof. split; vm_compute; reflexivity. Qed.

Lemma nonempty_args (A : Type) (positional : list value) (f : value)
    (x y : A) :
  match positional ++ [f] with [] => x | _ :: _ => y end = y.
Proof. destruct positional; reflexivity. Qed.

Lemma lock_step_answers (w : world) (o : options) :
  (forall name timeout, on_lock w name timeout <> None) ->
  lock_step w o <> None.
Proof.
  intros H. unfold lock_step.
  destruct (truthy (getLock o)); [|discriminate].
  specialize (H (lockKey o) (lockTTL o)).
  destruct (on_lock w (lockKey o) (lockTTL o)); [discriminate|congruence].
Qed.

(** Every way a call can go when its last argument is the function
    [cb]. *)
Ltac paths_with_callback :=
  rewrite exec_lookup;
  repeat fork;
  rewrite ?nonempty_args, ?last_arg, ?removelast_last;
  repeat fork;
  cbn [emit after report trace outcome fst snd app
       lock_events release_events].

(** C3, as the code has it.  For a call whose last argument is a
    function, a store whose entry under the key, if any, is a JSON
    text, and a computation that neither throws nor reports data that
    cannot be serialized: no exception leaves the call, and every
    error that a collaborator passes to a callback of the call (the
    read, the computation, the write) is the first argument of an
    invocation of the trailing callback. *)
Theorem failures_reach_callback (w : world) (o : options)
    (positional : list value) (cb : nat) :
  entry_deserializes w o ->
  faultless w ->
  (forall e,
     outcome (exec w (cachify o (positional ++ [VFun cb]))) <> Thrown e) /\
  (forall e,
     truthy e = true ->
     handed_error e (trace (exec w (cachify o (positional ++ [VFun cb])))) ->
     exists data,
       In (EvCallback cb e data)
         (trace (exec w (cachify o (positional ++ [VFun cb]))))).
Proof.
  intros Hjson Hfault. unfold entry_deserializes in Hjson.
  unfold faultless in Hfault.
  paths_with_callback.
  all: try (exfalso; eapply Hjson; [reflexivity|eassumption]).
  all: try match goal with
           | H : apply_fault _ _ = Some _ |- _ =>
               rewrite Hfault in H; discriminate H
           end.
  all: split;
    [ intros e; discriminate
    | intros e He [[x Hin]|[[x Hin]|[Hin|Hin]]]; in_trace Hin;
      inversion Hin; subst;
      first [ congruence | eexists; find_event ] ].
Qed.

Lemma failures_reach_callback_witness :
  (forall e,
     outcome (exec Sample.write_fails
                (cachify Sample.user7 ([VStr "ada"] ++ [VFun 1])))
     <> Thrown e) /\
  (forall e,
     truthy e = true ->
     handed_error e
       (trace (exec Sample.write_fails
                 (cachify Sample.user7 ([VStr "ada"] ++ [VFun 1])))) ->
     exists data,
       In (EvCallback 1 e data)
         (trace (exec Sample.write_fails
                   (cachify Sample.user7 ([VStr "ada"] ++ [VFun 1]))))).
Proof.
  apply (failures_reach_callback Sample.write_fails Sample.user7
           [VStr "ada"] 1).
  - intros err cache H. injection H as <- <-. discriminate.
  - intros positional. reflexivity.
Defined.

(** C3, as the claim has it, fails: when the entry under the key is
    not JSON, [JSON.parse] throws inside the callback of the read; the
    exception leaves the call and the trailing callback is not invoked
    at all. *)
Lemma corrupted_entry_throws :
  exec Sample.corrupted (cachify Sample.user7 [VStr "ada"; VFun 1]) =
  ([EvGet "user:7"; EvGetReply VNull (RString "{bad")], Thrown SyntaxError).
Proof. vm_compute. reflexivity. Qed.

(** C8, as the code has it.  When every collaborator answers every
    request with one callback (the computation with data that can be
    serialized), the last argument of the call is a function and the
    entry under the key, if any, is a JSON text, the call invokes its
    trailing callback exactly once, and ends with it. *)
Theorem completes_exactly_once (w : world) (o : options)
    (positional : list value) (cb : nat) :
  answers w ->
  entry_deserializes w o ->
  count is_callback (trace (exec w (cachify o (positional ++ [VFun cb]))))
  = 1 /\
  outcome (exec w (cachify o (positional ++ [VFun cb]))) = Returned.
Proof.
  intros (Hget & Hset & Hlock & Hf) Hjson. unfold entry_deserializes in Hjson.
  pose proof (lock_step_answers w o Hlock) as Hstep.
  paths_with_callback.
  all: try (exfalso; eapply Hjson; [reflexivity|eassumption]).
  all: try congruence.
  all: try (exfalso; eapply Hget; eassumption).
  all: try (exfalso; eapply Hset; eassumption).
  all: try (exfalso; eapply Hf; eassumption).
  all: split; reflexivity.
Qed.

Lemma completes_exactly_once_witness :
  count is_callback
    (trace (exec Sample.fresh (cachify Sample.user7 ([VStr "ada"] ++ [VFun 1]))))
  = 1 /\
  outcome (exec Sample.fresh (cachify Sample.user7 ([VStr "ada"] ++ [VFun 1])))
  = Returned.
Proof.
  apply (completes_exactly_once Sample.fresh Sample.user7 [VStr "ada"] 1).
  - repeat split; intros; discriminate.
  - intros err cache H. injection H as <- <-. discriminate.
Defined.

(** C8, as the claim has it, fails: every collaborator answers, yet
    with an entry that is not JSON the trailing callback is invoked
    zero times. *)
Lemma corrupted_entry_never_completes :
  answers Sample.corrupted /\
  count is_callback
    (trace (exec Sample.corrupted (cachify Sample.user7 [VStr "ada"; VFun 1])))
  = 0.
Proof.
  split.
  - repeat split; intros; discriminate.
  - vm_compute. reflexivity.
Qed.

(** Every lock request of a call is for [lockKey] and [lockTTL]. *)
Lemma lock_request (w : world) (o : options) (args : list value)
    (name : string) (timeout : value) :
  In (EvLock name timeout) (trace (exec w (cachify o args))) ->
  name = lockKey o /\ timeout = lockTTL o.
Proof.
  all_paths args.
  all: intros Hin; in_trace Hin.
  all: injection Hin as <- <-; split; reflexivity.
Qed.

(** C10.  Whatever the call, a lock is only ever requested with the
    lifetime [options.lockTTL] when that value is truthy and with
    60000 otherwise; it is never requested with lifetime 0. *)
Theorem lock_lifetime_defaults (w : world) (o : options)
    (args : list value) (name : string) (timeout : value) :
  In (EvLock name timeout) (trace (exec w (cachify o args))) ->
  timeout = (if truthy (o_lockTTL o) then o_lockTTL o else VNum 60000) /\
  timeout <> VNum 0.
Proof.
  intros Hin. apply lock_request in Hin. destruct Hin as [_ ->].
  split.
  - reflexivity.
  - intros Hzero. pose proof (truthy_lockTTL o) as Htruthy.
    rewrite Hzero in Htruthy. discriminate Htruthy.
Qed.

Lemma lock_lifetime_defaults_witness :
  VNum 60000 =
  (if truthy (o_lockTTL Sample.zero_lockTTL)
   then o_lockTTL Sample.zero_lockTTL else VNum 60000) /\
  VNum 60000 <> VNum 0.
Proof.
  apply (lock_lifetime_defaults Sample.fresh Sample.zero_lockTTL
           [VStr "ada"; VFun 1] "user:7:lock" (VNum 60000)).
  vm_compute. tauto.
Defined.

Module Exclusion.

Import Concurrent.

Lemma guarded_call (o : options) (held : option handle)
    (f err data : value) :
  guarded o held (call f err data).
Proof. destruct f; exact I. Qed.

Lemma guarded_completion (o : options) (callback : value) (h : handle)
    (err : value) (data : datum) :
  guarded o (Some h) (completion o callback (Some h) err data).
Proof.
  unfold completion, setCache, finish, released.
  destruct (truthy err); [|destruct data as [data|]]; cbn [guarded].
  - split; [reflexivity|apply guarded_call].
  - intros err'. split; [reflexivity|apply guarded_call].
  - exact I.
Qed.

Lemma guarded_apply (o : options) (callback : value) (h : handle)
    (args : list value) :
  guarded o (Some h)
    (cachedFunc_apply args (completion o callback (Some h))).
Proof.
  unfold cachedFunc_apply. destruct args as [|a l]; cbn [guarded].
  - discriminate.
  - split; [discriminate|]. apply guarded_completion.
Qed.

(** With locking on, the decorated function computes under the lock
    only. *)
Lemma guarded_cachify (o : options) (args : list value) :
  truthy (getLock o) = true ->
  guarded o None (cachify o args).
Proof.
  intros Hlock.
  unfold cachify, getCache, waterfall. cbn [guarded].
  intros err cache.
  destruct (deserialize cache) as [c|]; [|exact I].
  destruct (truthy err) eqn:Herr; cbn [released orb].
  - apply guarded_call.
  - rewrite Hlock. cbn [negb].
    destruct (truthy c) eqn:Hc; cbn [orb truthy].
    + apply guarded_call.
    + cbn [guarded]. repeat split.
      intros h. apply guarded_apply.
Qed.

Lemma nth_update_same (i : nat) (t : thread) (l : list thread) (x : thread) :
  nth_error l i = Some x -> nth_error (update i t l) i = Some t.
Proof.
  revert i. induction l as [|y l IH]; intros [|i]; cbn; try discriminate.
  - reflexivity.
  - apply IH.
Qed.

Lemma nth_update_other (i j : nat) (t : thread) (l : list thread) :
  i <> j -> nth_error (update i t l) j = nth_error l j.
Proof.
  revert i j. induction l as [|y l IH]; intros [|i] [|j] Hij; cbn;
    try reflexivity.
  - contradiction.
  - apply IH. congruence.
Qed.

Lemma nth_update (i j : nat) (t x : thread) (l : list thread) :
  nth_error (update i t l) j = Some x ->
  (i = j /\ x = t) \/ (i <> j /\ nth_error l j = Some x).
Proof.
  intros H. destruct (Nat.eq_dec i j) as [<-|Hij].
  - left. split; [reflexivity|].
    destruct (nth_error l i) as [y|] eqn:E.
    + rewrite (nth_update_same i t l y E) in H. congruence.
    + exfalso. revert i H E.
      induction l as [|z l IH]; intros [|i]; cbn; try discriminate.
      apply IH.
  - right. split; [exact Hij|].
    rewrite nth_update_other in H by exact Hij. exact H.
Qed.

Lemma thread_ok_other (o : options) (lk lk' : option handle) (j : nat)
    (t : thread) :
  lk <> Some j -> lk' <> Some j ->
  thread_ok o lk j t -> thread_ok o lk' j t.
Proof.
  intros Hlk Hlk'. destruct t as [p| |]; cbn.
  - intros [[H _]|[_ H]]; [contradiction|right; split; assumption].
  - intros [H _]. contradiction.
  - intros H. contradiction.
Qed.

Lemma thread_ok_not_holder (o : options) (lk : option handle) (j : nat)
    (t : thread) :
  lk <> Some j -> thread_ok o lk j t ->
  exists p, t = Ready p /\ guarded o None p.
Proof.
  intros Hlk. destruct t as [p| |]; cbn.
  - intros [[H _]|[_ H]]; [contradiction|eauto].
  - intros [H _]. contradiction.
  - intros H. contradiction.
Qed.

Lemma grant_same (name : string) (h : handle)
    (held : string -> option handle) :
  grant name h held name = Some h.
Proof. unfold grant. rewrite String.eqb_refl. reflexivity. Qed.

Lemma free_same (name : string) (h : handle)
    (held : string -> option handle) :
  held name = Some h -> free h held name = None.
Proof. intros H. unfold free. rewrite H, Nat.eqb_refl. reflexivity. Qed.

(** The threads other than [i] keep their standing when call [i]
    changes and the lock passes between [i] and nobody. *)
Lemma others_kept (o : options) (s : system) (i : nat) (t : thread)
    (held' : string -> option handle) :
  consistent o s ->
  (holder s (lockKey o) = None \/ holder s (lockKey o) = Some i) ->
  (held' (lockKey o) = None \/ held' (lockKey o) = Some i) ->
  thread_ok o (held' (lockKey o)) i t ->
  consistent o {| holder := held'; threads := update i t (threads s) |}.
Proof.
  intros Hs Hold Hnew Hi j x Hj. cbn [threads holder] in *.
  apply nth_update in Hj. destruct Hj as [[<- ->]|[Hij Hj]].
  - exact Hi.
  - apply (thread_ok_other o (holder s (lockKey o))).
    + destruct Hold as [-> | ->]; congruence.
    + destruct Hnew as [-> | ->]; congruence.
    + apply Hs. exact Hj.
Qed.

(** The same when the lock does not change hands. *)
Lemma same_holder_kept (o : options) (s : system) (i : nat) (t : thread) :
  consistent o s ->
  thread_ok o (holder s (lockKey o)) i t ->
  consistent o {| holder := holder s; threads := update i t (threads s) |}.
Proof.
  intros Hs Hi j x Hj. cbn [threads holder] in *.
  apply nth_update in Hj. destruct Hj as [[<- ->]|[Hij Hj]].
  - exact Hi.
  - apply Hs. exact Hj.
Qed.

Lemma step_consistent (o : options) (s s' : system) (i : nat)
    (a : answer) :
  is_expire a = false ->
  consistent o s -> step s i a = Some s' -> consistent o s'.
Proof.
  intros Hne Hs. unfold step.
  destruct (nth_error (threads s) i) as [t|] eqn:Ht;
    [|destruct a; discriminate].
  pose proof (Hs i t Ht) as Hi.
  destruct t as [p|callback|]; [destruct p|..]; destruct a;
    try discriminate; cbn [thread_ok guarded] in Hi.
  - (* redis.get answered *)
    intros [= <-]. apply same_holder_kept; [exact Hs|].
    cbn [thread_ok]. destruct Hi as [[Hlk Hg]|[Hlk Hg]]; auto.
  - (* redis.set answered *)
    intros [= <-]. apply same_holder_kept; [exact Hs|].
    cbn [thread_ok]. destruct Hi as [[Hlk Hg]|[Hlk Hg]]; auto.
  - (* lock granted *)
    destruct (holder s name) as [h|] eqn:Hfree; [discriminate|].
    intros [= <-].
    destruct Hi as [[_ [Hheld _]]|[_ [_ [-> Hg]]]]; [discriminate|].
    apply others_kept.
    + exact Hs.
    + left. exact Hfree.
    + right. apply grant_same.
    + rewrite grant_same. cbn [thread_ok]. left. split; [reflexivity|].
      apply Hg.
  - (* release *)
    intros [= <-].
    destruct Hi as [[Hlk [[= <-] Hg]]|[_ [Hheld _]]]; [|discriminate].
    apply others_kept.
    + exact Hs.
    + right. exact Hlk.
    + left. apply free_same. exact Hlk.
    + rewrite (free_same _ _ _ Hlk). cbn [thread_ok]. right.
      split; [discriminate|exact Hg].
  - (* cachedFunc throws *)
    intros [= <-]. apply same_holder_kept; [exact Hs|].
    cbn [thread_ok guarded]. destruct Hi as [[Hlk _]|[_ [Hheld _]]].
    + left. split; [exact Hlk|exact I].
    + contradiction.
  - (* cachedFunc called *)
    intros [= <-]. apply same_holder_kept; [exact Hs|].
    cbn [thread_ok]. destruct Hi as [[Hlk [_ Hg]]|[_ [Hheld _]]].
    + split; assumption.
    + contradiction.
  - (* cachedFunc, called without callback, throws *)
    intros [= <-]. apply same_holder_kept; [exact Hs|].
    cbn [thread_ok guarded]. destruct Hi as [[Hlk _]|[_ Hheld]].
    + left. split; [exact Hlk|exact I].
    + contradiction.
  - (* cachedFunc called without callback *)
    intros [= <-]. apply same_holder_kept; [exact Hs|].
    cbn [thread_ok]. destruct Hi as [[Hlk _]|[_ Hheld]].
    + exact Hlk.
    + contradiction.
  - (* the caller's callback *)
    intros [= <-]. apply same_holder_kept; [exact Hs|].
    cbn [thread_ok]. destruct Hi as [[Hlk Hg]|[Hlk Hg]]; auto.
  - (* cachedFunc calls back *)
    intros [= <-]. apply same_holder_kept; [exact Hs|].
    cbn [thread_ok]. destruct Hi as [Hlk Hg]. left. auto.
  - (* cachedFunc calls back with data that cannot be serialized *)
    intros [= <-]. apply same_holder_kept; [exact Hs|].
    cbn [thread_ok]. destruct Hi as [Hlk Hg]. left. auto.
Qed.

Lemma start_consistent (o : options) (calls : list (list value)) :
  truthy (getLock o) = true -> consistent o (start o calls).
Proof.
  intros Hlock i t Hi. cbn [start threads holder] in *.
  rewrite nth_error_map in Hi.
  destruct (nth_error calls i) as [args|]; [|discriminate].
  injection Hi as <-. cbn [thread_ok]. right.
  split; [discriminate|apply guarded_cachify; exact Hlock].
Qed.

Lemma play_consistent (o : options) (schedule : list (nat * answer))
    (s s' : system) :
  no_expiry schedule = true ->
  consistent o s -> play schedule s = Some s' -> consistent o s'.
Proof.
  revert s. induction schedule as [|[i a] rest IH]; intros s Hne Hs;
    cbn [play].
  - intros [= <-]. exact Hs.
  - cbn [no_expiry forallb snd] in Hne. apply andb_prop in Hne.
    destruct Hne as [Ha Hne]. apply negb_true_iff in Ha.
    destruct (step s i a) as [s1|] eqn:Hstep; [|discriminate].
    apply IH; [exact Hne|].
    apply (step_consistent o s s1 i a Ha Hs Hstep).
Qed.

Lemma computing_holds (o : options) (lk : option handle) (i : nat)
    (t : thread) :
  thread_ok o lk i t -> computing t = true -> lk = Some i.
Proof.
  destruct t as [p|callback|]; cbn.
  - discriminate.
  - intros [H _] _. exact H.
  - intros H _. exact H.
Qed.

(** C9, as the code has it.  Take any number of calls of one
    decorated function with locking on, and let them run interleaved
    in any order and with any answers of the store and of the
    computation, against a lock that is granted only when free, and
    no lock of which expires while held: every holder is done with its
    computation and its write within [lockTTL].  In every state they
    reach: a call whose computation is running holds the lock; so at
    most one computation is running; and a call that does not hold the
    lock is at a point where it cannot call the computation before
    having requested the lock, which it gets only after the holder has
    called its release function. *)
Theorem one_computation_while_lock_lasts (o : options)
    (calls : list (list value)) (schedule : list (nat * answer))
    (s : system) :
  truthy (getLock o) = true ->
  no_expiry schedule = true ->
  play schedule (start o calls) = Some s ->
  (forall i t,
     nth_error (threads s) i = Some t ->
     computing t = true ->
     holder s (lockKey o) = Some i) /\
  (forall i j ti tj,
     nth_error (threads s) i = Some ti ->
     nth_error (threads s) j = Some tj ->
     computing ti = true ->
     computing tj = true ->
     i = j) /\
  (forall j t,
     nth_error (threads s) j = Some t ->
     holder s (lockKey o) <> Some j ->
     exists p, t = Ready p /\ guarded o None p).
Proof.
  intros Hlock Hne Hplay.
  pose proof (play_consistent o schedule _ s Hne
                (start_consistent o calls Hlock) Hplay) as Hs.
  assert (Hholds : forall i t,
             nth_error (threads s) i = Some t ->
             computing t = true ->
             holder s (lockKey o) = Some i).
  { intros i t Hi Hc. apply (computing_holds o _ i t); [|exact Hc].
    apply Hs. exact Hi. }
  split; [exact Hholds|]. split.
  - intros i j ti tj Hi Hj Hci Hcj.
    pose proof (Hholds i ti Hi Hci) as Hli.
    pose proof (Hholds j tj Hj Hcj) as Hlj.
    congruence.
  - intros j t Hj Hlk.
    apply (thread_ok_not_holder o (holder s (lockKey o)) j t Hlk).
    apply Hs. exact Hj.
Qed.

Lemma one_computation_while_lock_lasts_witness :
  (forall i t,
     nth_error (threads second_computing) i = Some t ->
     computing t = true ->
     holder second_computing (lockKey Sample.user7) = Some i) /\
  (forall i j ti tj,
     nth_error (threads second_computing) i = Some ti ->
     nth_error (threads second_computing) j = Some tj ->
     computing ti = true ->
     computing tj = true ->
     i = j) /\
  (forall j t,
     nth_error (threads second_computing) j = Some t ->
     holder second_computing (lockKey Sample.user7) <> Some j ->
     exists p, t = Ready p /\ guarded Sample.user7 None p).
Proof.
  apply (one_computation_while_lock_lasts Sample.user7 two_calls
           second_first second_computing);
    reflexivity.
Defined.

(** C9, as the claim has it, fails: the lock lives for [lockTTL] only.
    When the computation of the call that holds it takes longer, the
    lock expires, a call that was waiting for it gets it, and both
    computations are running at once, that of the first call without
    the lock. *)
Lemma expired_lock_lets_two_compute :
  truthy (getLock Sample.user7) = true /\
  exists s,
    play outlasted (start Sample.user7 two_calls) = Some s /\
    map computing (threads s) = [true; true] /\
    holder s (lockKey Sample.user7) = Some 1.
Proof.
  split; [reflexivity|].
  eexists. split; [reflexivity|]. split; reflexivity.
Qed.

(** In the state of the witness the second call is computing and
    holds the lock, and the first has its request for the lock
    pending. *)
Example second_computing_state :
  holder second_computing "user:7:lock" = Some 1 /\
  map computing (threads second_computing) = [false; true] /\
  step second_computing 0 Go = None.
Proof. repeat split. Qed.

End Exclusion.

(** ** Further properties of a call *)

(** X1.  When the store answers the read without error and with a
    text whose deserialization is truthy, a call whose last argument
    is the function [cb] does nothing but read and report: it invokes
    [cb] with [null] and the deserialized value, requests no lock,
    does not call [cachedFunc] and writes nothing. *)
Theorem truthy_entry_is_reported (w : world) (o : options)
    (args : list value) (cb : nat) (err : value) (cache : reply)
    (c : value) :
  last args VUndefined = VFun cb ->
  on_get w (o_key o) = Some (err, cache) ->
  truthy err = false ->
  deserialize cache = Some c ->
  truthy c = true ->
  exec w (cachify o args) =
  ([EvGet (o_key o); EvGetReply err cache; EvCallback cb VNull c], Returned).
Proof.
  intros Hcb Hget Herr Hdes Hc.
  lookup Hget Hdes. rewrite Herr, Hc, Hcb. reflexivity.
Qed.

Lemma truthy_entry_is_reported_witness :
  exec (Sample.answering (Some (VNull, RString "[1]")) None None None)
    (cachify Sample.user7 [VStr "ada"; VFun 1]) =
  ([EvGet "user:7"; EvGetReply VNull (RString "[1]");
    EvCallback 1 VNull (VArr [VNum 1])], Returned).
Proof.
  apply (truthy_entry_is_reported
           (Sample.answering (Some (VNull, RString "[1]")) None None None)
           Sample.user7 [VStr "ada"; VFun 1] 1 VNull (RString "[1]")
           (VArr [VNum 1]));
    reflexivity.
Defined.

(** X2.  When the lookup finds nothing and the computation reports an
    error, the call stores nothing: after the computation it releases
    the lock if it holds one and invokes the trailing callback with the
    error and [undefined], dropping whatever data came with the
    error. *)
Theorem computation_error_is_not_cached (w : world) (o : options)
    (positional : list value) (cb : nat) (gerr : value) (cache : reply)
    (c : value) (release : option handle) (cerr data : value) :
  on_get w (o_key o) = Some (gerr, cache) ->
  truthy gerr = false ->
  deserialize cache = Some c ->
  truthy c = false ->
  lock_step w o = Some release ->
  on_apply w positional = Some (cerr, data) ->
  truthy cerr = true ->
  exec w (cachify o (positional ++ [VFun cb])) =
  ([EvGet (o_key o); EvGetReply gerr cache] ++
   lock_events o release ++
   [EvApply positional; EvResult cerr data] ++
   release_events release ++
   [EvCallback cb cerr VUndefined],
   Returned).
Proof.
  intros Hget Hgerr Hdes Hc Hlock Hf Hcerr.
  lookup Hget Hdes. rewrite Hgerr, Hc, Hlock, exec_recompute.
  rewrite removelast_last, last_arg, Hf, Hcerr.
  destruct positional; destruct release; reflexivity.
Qed.

Lemma computation_error_is_not_cached_witness :
  exec (Sample.answering (Some (VNull, RNull)) (Some VNull) (Some 1)
          (Some (Sample.ECONNRESET, Sample.profile)))
    (cachify Sample.user7 ([VStr "ada"] ++ [VFun 1])) =
  ([EvGet "user:7"; EvGetReply VNull RNull] ++
   lock_events Sample.user7 (Some 1) ++
   [EvApply [VStr "ada"]; EvResult Sample.ECONNRESET Sample.profile] ++
   release_events (Some 1) ++
   [EvCallback 1 Sample.ECONNRESET VUndefined],
   Returned).
Proof.
  apply (computation_error_is_not_cached
           (Sample.answering (Some (VNull, RNull)) (Some VNull) (Some 1)
              (Some (Sample.ECONNRESET, Sample.profile)))
           Sample.user7 [VStr "ada"] 1 VNull RNull VNull (Some 1)
           Sample.ECONNRESET Sample.profile);
    reflexivity.
Defined.

(** X3.  Whatever the collaborators answer and whatever the arguments,
    a call writes to the store at most once, and what it writes is the
    serialization of a result that the computation reported without
    error, under the key, with ["EX"] and [ttl]. *)
Theorem writes_only_a_successful_result (w : world) (o : options)
    (args : list value) :
  filter is_set (trace (exec w (cachify o args))) = [] \/
  exists err data,
    truthy err = false /\
    In (EvResult err data) (trace (exec w (cachify o args))) /\
    filter is_set (trace (exec w (cachify o args))) =
    [EvSet (o_key o) (JSON.stringify data) "EX" (o_ttl o)].
Proof.
  all_paths args.
  all: first
    [ left; reflexivity
    | right; do 2 eexists; split; [eassumption|];
      split; [find_event|reflexivity] ].
Qed.

(** X4.  When [options.lock] is given and falsy ([false], but also
    [null], [0] or the empty string), no call ever requests the lock or
    releases anything. *)
Theorem falsy_lock_option_disables_locking (w : world) (o : options)
    (args : list value) :
  o_lock o <> VUndefined ->
  truthy (o_lock o) = false ->
  filter touches_lock (trace (exec w (cachify o args))) = [].
Proof.
  intros Hdef Hfalsy.
  assert (Hstep : lock_step w o = Some None).
  { unfold lock_step, getLock.
    destruct (o_lock o); try congruence; rewrite Hfalsy; reflexivity. }
  rewrite exec_lookup, Hstep.
  remember (last args VUndefined) as callback.
  repeat fork.
  all: try rewrite <- Heqcallback.
  all: remember (removelast args) as positional.
  all: try destruct args.
  all: repeat fork.
  all: reflexivity.
Qed.

Lemma falsy_lock_option_disables_locking_witness :
  filter touches_lock
    (trace (exec Sample.fresh
              (cachify {| o_key := "user:7"; o_ttl := VNum 30;
                          o_lockTTL := VUndefined; o_lock := VNull |}
                 [VStr "ada"; VFun 1]))) = [].
Proof.
  apply (falsy_lock_option_disables_locking Sample.fresh
           {| o_key := "user:7"; o_ttl := VNum 30;
              o_lockTTL := VUndefined; o_lock := VNull |}
           [VStr "ada"; VFun 1]).
  - discriminate.
  - reflexivity.
Defined.

(** X5.  With locking on ([options.lock] absent or truthy), whatever
    the collaborators answer and whatever the arguments, [cachedFunc]
    is only ever called between the moment the lock hands over its
    release function and the call of that function. *)
Theorem locking_on_computes_under_lock (w : world) (o : options)
    (args : list value) :
  truthy (getLock o) = true ->
  computes_under_lock false (trace (exec w (cachify o args))) = true.
Proof.
  intros Hon.
  assert (Hstep : lock_step w o =
                  match on_lock w (lockKey o) (lockTTL o) with
                  | Some h => Some (Some h)
                  | None => None
                  end).
  { unfold lock_step. rewrite Hon. reflexivity. }
  rewrite exec_lookup, Hstep.
  remember (last args VUndefined) as callback.
  repeat fork.
  all: try destruct (on_lock w (lockKey o) (lockTTL o)).
  all: repeat fork.
  all: try rewrite <- Heqcallback.
  all: remember (removelast args) as positional.
  all: try destruct args.
  all: repeat fork.
  all: reflexivity.
Qed.

Lemma locking_on_computes_under_lock_witness :
  computes_under_lock false
    (trace (exec Sample.fresh (cachify Sample.user7 [VStr "ada"; VFun 1])))
  = true.
Proof.
  apply (locking_on_computes_under_lock Sample.fresh Sample.user7
           [VStr "ada"; VFun 1]).
  reflexivity.
Defined.

(** X6.  Every call reads the store exactly once, and does so before
    anything else: in particular it does not read again after it got
    the lock, so a call that read nothing recomputes even if another
    call stored a value while it waited. *)
Theorem reads_once_first (w : world) (o : options) (args : list value) :
  exists rest,
    trace (exec w (cachify o args)) = EvGet (o_key o) :: rest /\
    filter is_get rest = [].
Proof.
  all_paths args.
  all: eexists; split; reflexivity.
Qed.

(** X7.  A call without any argument never invokes a callback and
    never returns normally; when it finds nothing in the store it
    calls [cachedFunc] with no argument at all, not even a callback,
    and a lock it took is never released by it. *)
Theorem call_without_arguments (w : world) (o : options) :
  count is_callback (trace (exec w (cachify o []))) = 0 /\
  count is_release (trace (exec w (cachify o []))) = 0 /\
  outcome (exec w (cachify o [])) <> Returned /\
  (forall positional,
     In (EvApply positional) (trace (exec w (cachify o []))) ->
     positional = []).
Proof.
  rewrite exec_lookup. cbn [last].
  repeat fork.
  all: cbn [emit after report trace outcome fst snd app removelast
            lock_events release_events].
  all: repeat split; try discriminate.
  all: intros positional Hin; in_trace Hin.
  all: injection Hin as <-; reflexivity.
Qed.

(** X8.  When the last argument of a call is not a function, the call
    never invokes a callback and never returns normally: where it
    would report, a TypeError leaves the call instead. *)
Theorem last_argument_not_a_function (w : world) (o : options)
    (args : list value) :
  (forall id, last args VUndefined <> VFun id) ->
  count is_callback (trace (exec w (cachify o args))) = 0 /\
  (outcome (exec w (cachify o args)) = Waiting \/
   exists e, outcome (exec w (cachify o args)) = Thrown e).
Proof.
  intros Hnot.
  all_paths args.
  all: try (exfalso; eapply Hnot; reflexivity).
  all: split; [reflexivity|].
  all: first [ left; reflexivity | right; eexists; reflexivity ].
Qed.

Lemma last_argument_not_a_function_witness :
  count is_callback
    (trace (exec Sample.fresh (cachify Sample.user7 [VStr "ada"]))) = 0 /\
  (outcome (exec Sample.fresh (cachify Sample.user7 [VStr "ada"])) = Waiting \/
   exists e,
     outcome (exec Sample.fresh (cachify Sample.user7 [VStr "ada"]))
     = Thrown e).
Proof.
  apply (last_argument_not_a_function Sample.fresh Sample.user7
           [VStr "ada"]).
  intros id. discriminate.
Defined.



Lemma length_append (a b : string) :
  String.length (a ++ b)%string = String.length a + String.length b.
Proof. induction a as [|c a IH]; cbn; [reflexivity|now rewrite IH]. Qed.

Lemma lockKey_differs (o : options) : lockKey o <> o_key o.
Proof.
  unfold lockKey, cacheKey. intros H.
  apply (f_equal String.length) in H.
  rewrite length_append in H. cbn in H. lia.
Qed.

(** X10.  Every read and every write of a call is on [options.key],
    and every lock request on [options.key] followed by [":lock"],
    which is never the key itself: the lock does not live under the
    name of the entry it guards. *)
Theorem keys_of_a_call (w : world) (o : options) (args : list value) :
  (forall key,
     In (EvGet key) (trace (exec w (cachify o args))) -> key = o_key o) /\
  (forall key data mode ttl,
     In (EvSet key data mode ttl) (trace (exec w (cachify o args))) ->
     key = o_key o) /\
  (forall name timeout,
     In (EvLock name timeout) (trace (exec w (cachify o args))) ->
     name = (o_key o ++ ":lock")%string /\ name <> o_key o).
Proof.
  split; [|split].
  - all_paths args.
    all: intros key Hin; in_trace Hin.
    all: injection Hin as <-; reflexivity.
  - all_paths args.
    all: intros key data mode ttl Hin; in_trace Hin.
    all: injection Hin as <- _ _ _; reflexivity.
  - intros name timeout Hin. apply lock_request in Hin.
    destruct Hin as [-> _]. split; [reflexivity|apply lockKey_differs].
Qed.

Lemma keys_of_a_call_witness :
  "user:7:lock" = ("user:7" ++ ":lock")%string /\ "user:7:lock" <> "user:7".
Proof.
  apply (proj2 (proj2 (keys_of_a_call Sample.fresh Sample.user7
                         [VStr "ada"; VFun 1]))
           "user:7:lock" (VNum 60000)).
  vm_compute. tauto.
Defined.

(** ** Further properties of interleaved calls *)

Module Unlocked.

Import Concurrent.

(** A call that reads nothing, with locking off, goes straight to
    the computation. *)
Lemma miss_goes_to_apply (o : options) (a : value) (l : list value)
    (s : system) (i : nat) (err : value) :
  truthy (getLock o) = false ->
  truthy err = false ->
  nth_error (threads s) i = Some (Ready (cachify o (a :: l))) ->
  play [(i, GetAnswer err RNull); (i, Go)] s =
  Some {| holder := holder s;
          threads :=
            update i
              (Computing (completion o (last (a :: l) VUndefined) None))
              (update i
                 (Ready (Apply (removelast (a :: l))
                           (completion o (last (a :: l) VUndefined) None)))
                 (threads s)) |}.
Proof.
  intros Hoff Herr Hi.
  cbn [play]. unfold step at 1. rewrite Hi.
  unfold cachify, getCache, waterfall.
  cbn [deserialize reply_value truthy]. rewrite Herr, Hoff.
  cbn [orb negb truthy released cachedFunc_apply].
  unfold step. cbn [threads holder].
  rewrite (Exclusion.nth_update_same i _ _ _ Hi).
  reflexivity.
Qed.

Lemma play_app (a b : list (nat * answer)) (s : system) :
  play (a ++ b) s =
  match play a s with
  | Some s' => play b s'
  | None => None
  end.
Proof.
  revert s. induction a as [|[i x] a IH]; intros s; cbn [play app].
  - reflexivity.
  - destruct (step s i x); [apply IH|reflexivity].
Qed.

(** X13.  With locking off, two calls that both find nothing run
    their computations at the same time: the exclusion of C9 rests on
    the lock alone. *)
Theorem unlocked_calls_compute_together (o : options)
    (a1 a2 : value) (l1 l2 : list value) :
  truthy (getLock o) = false ->
  exists s,
    play [(0, GetAnswer VNull RNull); (0, Go);
          (1, GetAnswer VNull RNull); (1, Go)]
      (start o [a1 :: l1; a2 :: l2]) = Some s /\
    map computing (threads s) = [true; true].
Proof.
  intros Hoff.
  change [(0, GetAnswer VNull RNull); (0, Go);
          (1, GetAnswer VNull RNull); (1, Go)]
    with ([(0, GetAnswer VNull RNull); (0, Go)] ++
          [(1, GetAnswer VNull RNull); (1, Go)]).
  rewrite play_app.
  rewrite (miss_goes_to_apply o a1 l1 (start o [a1 :: l1; a2 :: l2]) 0
             VNull Hoff eq_refl eq_refl).
  erewrite (miss_goes_to_apply o a2 l2 _ 1 VNull Hoff eq_refl);
    [|reflexivity].
  eexists. split; reflexivity.
Qed.

Lemma unlocked_calls_compute_together_witness :
  exists s,
    play [(0, GetAnswer VNull RNull); (0, Go);
          (1, GetAnswer VNull RNull); (1, Go)]
      (start {| o_key := "user:7"; o_ttl := VNum 30;
                o_lockTTL := VUndefined; o_lock := VBool false |}
         [VStr "ada" :: [VFun 1]; VStr "bob" :: [VFun 2]]) = Some s /\
    map computing (threads s) = [true; true].
Proof.
  apply (unlocked_calls_compute_together
           {| o_key := "user:7"; o_ttl := VNum 30;
              o_lockTTL := VUndefined; o_lock := VBool false |}
           (VStr "ada") (VStr "bob") [VFun 1] [VFun 2]).
  reflexivity.
Defined.

End Unlocked.

(** ** Properties of [invalidate] *)

Module InvalidateFacts.

Import Invalidate.

(** X14.  [invalidate] asks redis for one [del] of the key it is
    given, whatever the callback.  Without a callback (or with a falsy
    one) whatever redis answers, an error included, is dropped and
    nothing is thrown; with a function as callback, that function gets
    the error and the reply of redis as they are. *)
Theorem invalidate_reports_to_callback_if_any
    (on_del : string -> option (value * value)) (key : string)
    (callback err reply : value) :
  on_del key = Some (err, reply) ->
  (truthy callback = false ->
   run_request on_del (invalidate key callback) =
   ([EvDel key; EvDelReply err reply], Returned)) /\
  (forall id,
     callback = VFun id ->
     run_request on_del (invalidate key callback) =
     ([EvDel key; EvDelReply err reply; EvDelCallback id err reply],
      Returned)).
Proof.
  intros Hdel. unfold invalidate, or_noop, run_request. rewrite Hdel.
  split.
  - intros ->. reflexivity.
  - intros id ->. reflexivity.
Qed.

Lemma invalidate_reports_to_callback_if_any_witness :
  run_request (fun _ => Some (Sample.ECONNRESET, VUndefined))
    (invalidate "user:7" VUndefined) =
  ([EvDel "user:7"; EvDelReply Sample.ECONNRESET VUndefined], Returned).
Proof.
  apply (proj1 (invalidate_reports_to_callback_if_any
                  (fun _ => Some (Sample.ECONNRESET, VUndefined))
                  "user:7" VUndefined Sample.ECONNRESET VUndefined
                  eq_refl)).
  reflexivity.
Defined.

End InvalidateFacts.

(** ** Serialization round trip *)

Module Roundtrip.

Import JSON.

Abbreviation chars := list_ascii_of_string.

Lemma chars_app (a b : string) : chars (a ++ b)%string = chars a ++ chars b.
Proof. induction a as [|c a IH]; cbn; [reflexivity|now rewrite IH]. Qed.

(** *** Strings *)

(** An escape below the surrogates stands alone. *)
Lemma pair_low (hi : N) (r : list ascii) :
  (hi <? 55296)%N = true -> pair hi r = None.
Proof.
  intros Hlow.
  assert (Hs : forall lo, surrogates hi lo = None).
  { intros lo. unfold surrogates.
    destruct (55296 <=? hi)%N eqn:E; [|reflexivity].
    apply N.leb_le in E. apply N.ltb_lt in Hlow. lia. }
  destruct r as [|c1 [|c2 [|a [|b [|x [|y r2]]]]]]; try reflexivity.
  all: destruct c1 as [[] [] [] [] [] [] [] []]; try reflexivity.
  all: destruct c2 as [[] [] [] [] [] [] [] []]; try reflexivity.
  cbn [pair]. destruct (unicode a b x y); [apply Hs|reflexivity].
Qed.

Lemma parse_escape (a b x y : ascii) (hi : N) (r : list ascii)
    (t : string) (rest : list ascii) :
  unicode a b x y = Some hi ->
  (hi <? 55296)%N = true ->
  parse_chars r = Some (t, rest) ->
  parse_chars ("\"%char :: "u"%char :: a :: b :: x :: y :: r) =
  Some ((utf8 hi ++ t)%string, rest).
Proof.
  intros Hu Hlow H.
  change (parse_chars ("\"%char :: "u"%char :: a :: b :: x :: y :: r))
    with (match unicode a b x y with
          | None => None
          | Some hi =>
              match pair hi r, r with
              | Some cp, _ :: _ :: _ :: _ :: _ :: _ :: r2 =>
                  match parse_chars r2 with
                  | Some (t, r'') => Some ((utf8 cp ++ t)%string, r'')
                  | None => None
                  end
              | _, _ =>
                  match parse_chars r with
                  | Some (t, r'') => Some ((utf8 hi ++ t)%string, r'')
                  | None => None
                  end
              end
          end).
  rewrite Hu, (pair_low hi r Hlow), H. reflexivity.
Qed.

Lemma parse_quoted_char (c : ascii) (r : list ascii) (t : string)
    (rest : list ascii) :
  parse_chars r = Some (t, rest) ->
  parse_chars (chars (quote_char c) ++ r) = Some (String c t, rest).
Proof.
  intros H.
  destruct c as [[] [] [] [] [] [] [] []];
    match goal with
    | |- context [chars (quote_char ?c)] =>
        let x := eval vm_compute in (chars (quote_char c)) in
        change (chars (quote_char c)) with x
    end;
    cbn [app];
    first
      [ match goal with
        | |- parse_chars ("\"%char :: "u"%char :: ?a :: ?b :: ?x :: ?y :: r)
             = _ =>
            let u := eval vm_compute in (unicode a b x y) in
            match u with
            | Some ?hi =>
                rewrite (parse_escape a b x y hi r t rest eq_refl eq_refl H)
            end
        end; reflexivity
      | cbn; rewrite H; reflexivity ].
Qed.

Lemma parse_quoted (s : string) (rest : list ascii) :
  parse_chars (chars (quote_chars s) ++ dquote :: rest) = Some (s, rest).
Proof.
  induction s as [|c s IH]; cbn [quote_chars].
  - reflexivity.
  - rewrite chars_app, <- app_assoc. apply parse_quoted_char. exact IH.
Qed.

(** *** Numbers *)

Lemma delimited_no_digit (rest : list ascii) : delimited rest -> no_digit rest.
Proof.
  destruct rest as [|c r]; cbn; [trivial|].
  intros [-> | [-> | ->]]; reflexivity.
Qed.

Lemma digits_stop (acc : Z) (rest : list ascii) :
  no_digit rest -> digits acc rest = (acc, rest).
Proof.
  destruct rest as [|c r]; cbn; [reflexivity|]. intros ->. reflexivity.
Qed.

Lemma digits_acc (l : Decimal.uint) (acc : positive) (rest : list ascii) :
  no_digit rest ->
  digits (Z.pos acc) (chars (NilEmpty.string_of_uint l) ++ rest) =
  (Z.pos (Pos.of_uint_acc l acc), rest).
Proof.
  intros Hrest. revert acc.
  induction l as [|l IH|l IH|l IH|l IH|l IH|l IH|l IH|l IH|l IH|l IH];
    intros acc;
    cbn [NilEmpty.string_of_uint chars app Pos.of_uint_acc];
    [apply digits_stop; exact Hrest|..];
    cbn [digits];
    match goal with
    | |- context [digit_of ?c] =>
        let d := eval vm_compute in (digit_of c) in
        change (digit_of c) with d
    end;
    cbv iota;
    rewrite <- IH; f_equal; lia.
Qed.

Lemma number_end_delimited (neg : bool) (n : Z) (rest : list ascii) :
  delimited rest ->
  number_end neg n rest = Some (VNum (if neg then - n else n)%Z, rest).
Proof.
  intros Hrest.
  assert (Hf : fraction n rest = Some (n, 0%Z, rest) /\
               exponent rest = Some (0%Z, rest)).
  { destruct rest as [|c r]; [split; reflexivity|].
    destruct Hrest as [-> | [-> | ->]]; split; reflexivity. }
  destruct Hf as [Hf He].
  unfold number_end. rewrite Hf, He.
  unfold number. cbn [Z.add Z.leb Z.compare Z.pow Z.pow_pos Pos.iter].
  rewrite Z.mul_1_r. reflexivity.
Qed.

(** Safe integers are written with all their digits. *)
Lemma number_text_safe (n : Z) :
  safe_integer n = true ->
  number_text n = NilZero.string_of_int (Z.to_int n).
Proof.
  unfold safe_integer, number_text. intros H.
  apply Z.leb_le in H.
  destruct (Z.abs n <? 1000000000000000000000)%Z eqn:E; [reflexivity|].
  apply Z.ltb_ge in E. lia.
Qed.

Lemma unorm_head (d l : Decimal.uint) :
  Decimal.unorm d = Decimal.D0 l -> l = Decimal.Nil.
Proof.
  induction d; cbn; intros H; try discriminate H; auto.
  injection H as <-. reflexivity.
Qed.

Lemma to_uint_head (p : positive) (l : Decimal.uint) :
  Pos.to_uint p <> Decimal.D0 l.
Proof.
  intros H.
  pose proof (DecimalPos.Unsigned.to_of (Pos.to_uint p)) as Hn.
  rewrite DecimalPos.Unsigned.of_to in Hn. cbn [N.to_uint] in Hn.
  rewrite H in Hn. symmetry in Hn.
  apply unorm_head in Hn. subst l.
  apply (Unsigned.to_uint_nonzero p H).
Qed.

(** The digits of a positive number read back as the number. *)
Lemma parse_positive (neg : bool) (p : positive) (rest : list ascii) :
  delimited rest ->
  exists c r,
    chars (NilZero.string_of_uint (Pos.to_uint p)) ++ rest = c :: r /\
    digit_of c <> None /\
    parse_number
      ((if neg then ["-"%char] else []) ++ c :: r) =
    Some (VNum (if neg then Z.neg p else Z.pos p), rest).
Proof.
  intros Hrest.
  pose proof (DecimalPos.Unsigned.of_to p) as Hp.
  pose proof (delimited_no_digit rest Hrest) as Hnd.
  destruct (Pos.to_uint p) as [|l|l|l|l|l|l|l|l|l|l] eqn:Hd;
    [ exfalso; apply (Unsigned.to_uint_nonnil p Hd)
    | exfalso; apply (to_uint_head p l Hd)
    | .. ];
    cbn [Pos.of_uint] in Hp; injection Hp as Hp;
    cbn [NilZero.string_of_uint NilEmpty.string_of_uint chars app];
    (do 2 eexists; split; [reflexivity|]; split; [discriminate|]);
    destruct neg; cbn [app parse_number];
    match goal with
    | |- context [digit_of ?c] =>
        let d := eval vm_compute in (digit_of c) in
        change (digit_of c) with d
    end;
    cbv iota;
    match goal with
    | |- context [digits (Z.pos ?k) _] =>
        rewrite (digits_acc l k rest Hnd), Hp
    end;
    rewrite (number_end_delimited _ _ rest Hrest); reflexivity.
Qed.

Lemma value_digit_head (fuel : nat) (c : ascii) (r : list ascii) :
  digit_of c <> None ->
  parse_value (S fuel) (c :: r) = parse_number (c :: r).
Proof.
  intros H.
  destruct c as [[] [] [] [] [] [] [] []];
    first [ reflexivity | exfalso; apply H; reflexivity ].
Qed.

Lemma parse_value_number (fuel : nat) (n : Z) (rest : list ascii) :
  safe_integer n = true ->
  delimited rest ->
  parse_value (S fuel) (chars (number_text n) ++ rest) = Some (VNum n, rest).
Proof.
  intros Hsafe Hrest. rewrite (number_text_safe n Hsafe).
  destruct n as [|p|p]; cbn [Z.to_int].
  - cbn [NilZero.string_of_int NilZero.string_of_uint
         NilEmpty.string_of_uint chars app].
    rewrite value_digit_head by discriminate.
    cbn [parse_number].
    change (digit_of "0") with (Some 0%Z). cbv iota.
    apply (number_end_delimited false 0 rest Hrest).
  - cbn [NilZero.string_of_int].
    destruct (parse_positive false p rest Hrest) as (c & r & -> & Hc & Hp).
    rewrite value_digit_head by exact Hc. exact Hp.
  - cbn [NilZero.string_of_int chars app].
    destruct (parse_positive true p rest Hrest) as (c & r & -> & Hc & Hp).
    exact Hp.
Qed.

(** *** Arrays and objects *)

Lemma array_start (fuel : nat) (c : ascii) (r : list ascii) :
  value_start c = true ->
  parse_value (S fuel) ("["%char :: c :: r) =
  match parse_items (parse_value fuel) (List.length (c :: r)) (c :: r) with
  | Some (vs, r') => Some (VArr vs, r')
  | None => None
  end.
Proof.
  intros H.
  destruct c as [[] [] [] [] [] [] [] []];
    first [ discriminate H | reflexivity ].
Qed.

Lemma object_start (fuel : nat) (r : list ascii) :
  parse_value (S fuel) ("{"%char :: dquote :: r) =
  match
    parse_members (parse_value fuel) (List.length (dquote :: r)) (dquote :: r)
  with
  | Some (ms, r') => Some (VObj ms, r')
  | None => None
  end.
Proof. reflexivity. Qed.

Lemma text_arr (items : list value) :
  text (VArr items) =
  Some ("[" ++ join "," (map item_text items) ++ "]")%string.
Proof. reflexivity. Qed.

Lemma plain_text (v : value) : plain v = true -> text v <> None.
Proof. destruct v as [| |[]| | | | | | |]; cbn; congruence. Qed.

Lemma members_of_plain (fields : list (string * value)) :
  forallb (fun f => plain (snd f)) fields = true ->
  flat_map
    (fun f : string * value =>
       match text (snd f) with
       | Some t => [(quote (fst f) ++ ":" ++ t)%string]
       | None => []
       end) fields
  = map member_text fields.
Proof.
  induction fields as [|f fields IH]; cbn [forallb flat_map map].
  - reflexivity.
  - intros H. apply andb_prop in H. destruct H as [Hf H].
    rewrite (IH H). unfold member_text, item_text.
    pose proof (plain_text _ Hf) as Ht.
    destruct (text (snd f)); [reflexivity|congruence].
Qed.

Lemma text_obj (fields : list (string * value)) :
  forallb (fun f => plain (snd f)) fields = true ->
  text (VObj fields) =
  Some ("{" ++ join "," (map member_text fields) ++ "}")%string.
Proof.
  intros H. rewrite <- (members_of_plain fields H). reflexivity.
Qed.

Lemma item_head (v : value) :
  plain v = true ->
  exists c s, item_text v = String c s /\ value_start c = true.
Proof.
  intros Hv. unfold item_text.
  destruct v as [| |[]|n|m e| |s|items|fields|id]; try discriminate Hv.
  - do 2 eexists. split; reflexivity.
  - do 2 eexists. split; reflexivity.
  - do 2 eexists. split; reflexivity.
  - cbn [text]. rewrite (number_text_safe n Hv).
    destruct n as [|p|p]; cbn [Z.to_int NilZero.string_of_int].
    + do 2 eexists. split; reflexivity.
    + pose proof (Unsigned.to_uint_nonnil p) as Hnil.
      destruct (Pos.to_uint p); try congruence;
        do 2 eexists; split; reflexivity.
    + do 2 eexists. split; reflexivity.
  - do 2 eexists. split; reflexivity.
  - rewrite text_arr. do 2 eexists. split; reflexivity.
  - rewrite text_obj by exact Hv. do 2 eexists. split; reflexivity.
Qed.

Ltac flatten :=
  repeat first
    [ rewrite chars_app
    | rewrite <- app_assoc
    | progress cbn [chars app append] ].

Section Composite.

Variable pv : list ascii -> option (value * list ascii).

Lemma parse_items_join (items : list value) (x : value) (n : nat)
    (rest : list ascii) :
  List.length (x :: items) <= n ->
  (forall y rest',
     In y (x :: items) -> delimited rest' ->
     pv (chars (item_text y) ++ rest') = Some (y, rest')) ->
  parse_items pv n
    (chars (join "," (map item_text (x :: items))) ++ "]"%char :: rest)
  = Some (x :: items, rest).
Proof.
  revert x n. induction items as [|y items IH]; intros x n Hn Hpv.
  - destruct n as [|n]; [cbn in Hn; lia|].
    cbn [map join parse_items].
    rewrite Hpv; [reflexivity|left; reflexivity|cbn; auto].
  - destruct n as [|n]; [cbn in Hn; lia|].
    change (join "," (map item_text (x :: y :: items)))
      with (item_text x ++ "," ++ join "," (map item_text (y :: items)))%string.
    rewrite !chars_app, <- !app_assoc.
    cbn [parse_items chars app].
    rewrite Hpv; [|left; reflexivity|cbn; auto].
    cbn [skip_ws]. change (is_ws ",") with false. cbv iota.
    rewrite IH; [reflexivity|cbn in Hn |- *; lia|].
    intros z rest' Hz. apply Hpv. right. exact Hz.
Qed.

Lemma parse_members_join (fields : list (string * value))
    (f : string * value) (n : nat) (rest : list ascii) :
  List.length (f :: fields) <= n ->
  (forall g rest',
     In g (f :: fields) -> delimited rest' ->
     pv (chars (item_text (snd g)) ++ rest') = Some (snd g, rest')) ->
  parse_members pv n
    (chars (join "," (map member_text (f :: fields))) ++ "}"%char :: rest)
  = Some (f :: fields, rest).
Proof.
  revert f n. induction fields as [|g fields IH]; intros [k v] n Hn Hpv.
  - destruct n as [|n]; [cbn in Hn; lia|].
    cbn [map join]. unfold member_text, quote. cbn [fst snd].
    flatten. cbn [parse_members skip_ws].
    change (is_ws dquote) with false. cbv iota.
    change (negb (Nat.eqb (nat_of_ascii dquote) 34)) with false. cbv iota.
    rewrite parse_quoted. cbn [skip_ws].
    change (is_ws ":") with false. cbv iota.
    rewrite (Hpv (k, v)); [reflexivity|left; reflexivity|cbn; auto].
  - destruct n as [|n]; [cbn in Hn; lia|].
    change (join "," (map member_text ((k, v) :: g :: fields)))
      with (member_text (k, v) ++ "," ++
            join "," (map member_text (g :: fields)))%string.
    unfold member_text at 1, quote. cbn [fst snd].
    flatten. cbn [parse_members skip_ws].
    change (is_ws dquote) with false. cbv iota.
    change (negb (Nat.eqb (nat_of_ascii dquote) 34)) with false. cbv iota.
    rewrite parse_quoted. cbn [skip_ws].
    change (is_ws ":") with false. cbv iota.
    rewrite (Hpv (k, v)); [|left; reflexivity|cbn; auto].
    cbn [snd skip_ws]. change (is_ws ",") with false. cbv iota.
    rewrite IH; [reflexivity|cbn in Hn |- *; lia|].
    intros z rest' Hz. apply Hpv. right. exact Hz.
Qed.

End Composite.

(** *** Lengths and depths *)

Lemma chars_length (s : string) : List.length (chars s) = String.length s.
Proof. induction s as [|c s IH]; cbn; [reflexivity|now rewrite IH]. Qed.

Lemma join_covers (t : string) (texts : list string) :
  In t texts -> String.length t <= String.length (join "," texts).
Proof.
  induction texts as [|u texts IH]; [intros []|].
  intros [->|Hin].
  - destruct texts; cbn [join]; [lia|]. rewrite length_append. lia.
  - specialize (IH Hin). destruct texts as [|w texts]; [destruct Hin|].
    change (join "," (u :: w :: texts))
      with (u ++ "," ++ join "," (w :: texts))%string.
    rewrite !length_append. lia.
Qed.

Lemma join_counts (texts : list string) :
  (forall t, In t texts -> t <> ""%string) ->
  List.length texts <= String.length (join "," texts).
Proof.
  induction texts as [|u texts IH]; intros Hne; [cbn; lia|].
  assert (Hu : 1 <= String.length u).
  { destruct u; [exfalso; apply (Hne ""%string); [left|]; reflexivity|].
    cbn. lia. }
  destruct texts as [|w texts]; [cbn in *; lia|].
  change (join "," (u :: w :: texts))
    with (u ++ "," ++ join "," (w :: texts))%string.
  rewrite !length_append.
  assert (List.length (w :: texts) <= String.length (join "," (w :: texts))).
  { apply IH. intros t Ht. apply Hne. right. exact Ht. }
  cbn [List.length] in *. lia.
Qed.

Lemma height_item (x : value) (items : list value) :
  In x items ->
  height x <= fold_right (fun y h => Nat.max (height y) h) 0 items.
Proof.
  induction items as [|y items IH]; [intros []|].
  intros [->|Hin]; cbn [fold_right]; [lia|]. specialize (IH Hin). lia.
Qed.

Lemma height_field (f : string * value) (fields : list (string * value)) :
  In f fields ->
  height (snd f) <=
  fold_right (fun g h => Nat.max (height (snd g)) h) 0 fields.
Proof.
  induction fields as [|g fields IH]; [intros []|].
  intros [->|Hin]; cbn [fold_right]; [lia|]. specialize (IH Hin). lia.
Qed.

Lemma fold_max_bound (A : Type) (h : A -> nat) (l : list A) (b : nat) :
  (forall x, In x l -> h x <= b) ->
  fold_right (fun y m => Nat.max (h y) m) 0 l <= b.
Proof.
  induction l as [|y l IH]; intros H; cbn [fold_right]; [lia|].
  assert (h y <= b) by (apply H; left; reflexivity).
  assert (fold_right (fun y m => Nat.max (h y) m) 0 l <= b)
    by (apply IH; intros x Hx; apply H; right; exact Hx).
  lia.
Qed.

Lemma item_text_nonempty (v : value) :
  plain v = true -> item_text v <> ""%string.
Proof.
  intros Hv. destruct (item_head v Hv) as (c & s & -> & _). discriminate.
Qed.

Lemma member_text_covers (f : string * value) :
  String.length (item_text (snd f)) <= String.length (member_text f).
Proof.
  unfold member_text, quote. cbn [String.length].
  rewrite !length_append. lia.
Qed.

(** The text of a value is at least as long as the value is deep. *)
Lemma height_le_text (n : nat) (v : value) :
  height v <= n -> plain v = true ->
  height v <= String.length (item_text v).
Proof.
  revert v. induction n as [|n IH]; intros v Hh Hv.
  - lia.
  - destruct v as [| |b|z|m e| |s|items|fields|id]; cbn [height] in *; try lia.
    + unfold item_text. rewrite text_arr. cbn [String.length].
      rewrite !length_append. cbn [String.length].
      cbn [plain] in Hv.
      assert (fold_right (fun y h => Nat.max (height y) h) 0 items
              <= String.length (join "," (map item_text items))).
      { apply fold_max_bound. intros x Hx.
        transitivity (String.length (item_text x)).
        - apply IH.
          + pose proof (height_item x items Hx). lia.
          + apply (proj1 (forallb_forall _ _) Hv x Hx).
        - apply join_covers. apply in_map. exact Hx. }
      lia.
    + unfold item_text. cbn [plain] in Hv. rewrite text_obj by exact Hv.
      cbn [String.length]. rewrite !length_append. cbn [String.length].
      assert (fold_right (fun g h => Nat.max (height (snd g)) h) 0 fields
              <= String.length (join "," (map member_text fields))).
      { apply (fold_max_bound _ (fun g => height (snd g))). intros f Hf.
        transitivity (String.length (item_text (snd f))).
        - apply IH.
          + pose proof (height_field f fields Hf). lia.
          + apply (proj1 (forallb_forall _ _) Hv f Hf).
        - transitivity (String.length (member_text f)).
          + apply member_text_covers.
          + apply join_covers. apply in_map. exact Hf. }
      lia.
Qed.

(** *** Values *)

Lemma string_start (fuel : nat) (r : list ascii) :
  parse_value (S fuel) (dquote :: r) =
  match parse_chars r with
  | Some (t, r') => Some (VStr t, r')
  | None => None
  end.
Proof. reflexivity. Qed.

Lemma parse_value_text (fuel : nat) (v : value) (rest : list ascii) :
  plain v = true ->
  height v < fuel ->
  delimited rest ->
  parse_value fuel (chars (item_text v) ++ rest) = Some (v, rest).
Proof.
  revert v rest. induction fuel as [|fuel IH]; intros v rest Hv Hh Hrest;
    [lia|].
  destruct v as [| |[]|n|m e| |s|items|fields|id]; try discriminate Hv.
  - reflexivity.
  - reflexivity.
  - reflexivity.
  - apply parse_value_number; [exact Hv|exact Hrest].
  - unfold item_text. cbn [text]. unfold quote. flatten.
    rewrite string_start, parse_quoted. reflexivity.
  - unfold item_text. rewrite text_arr. cbn [plain height] in Hv, Hh.
    destruct items as [|x items]; [reflexivity|].
    flatten.
    assert (Hitems : forall y rest',
               In y (x :: items) -> delimited rest' ->
               parse_value fuel (chars (item_text y) ++ rest')
               = Some (y, rest')).
    { intros y rest' Hy Hrest'. apply IH.
      - apply (proj1 (forallb_forall _ _) Hv y Hy).
      - pose proof (height_item y _ Hy). lia.
      - exact Hrest'. }
    assert (Hlen : List.length (x :: items) <=
                   List.length
                     (chars (join "," (map item_text (x :: items))) ++
                      "]"%char :: rest)).
    { rewrite length_app, chars_length.
      pose proof (join_counts (map item_text (x :: items))) as Hc.
      rewrite length_map in Hc.
      assert (List.length (x :: items) <=
              String.length (join "," (map item_text (x :: items)))).
      { apply Hc. intros t Ht. apply in_map_iff in Ht.
        destruct Ht as (y & <- & Hy). apply item_text_nonempty.
        apply (proj1 (forallb_forall _ _) Hv y Hy). }
      lia. }
    pose proof (parse_items_join (parse_value fuel) items x _ rest Hlen Hitems)
      as Hparse.
    destruct (item_head x) as (c & t & Hx & Hc).
    { apply (proj1 (forallb_forall _ _) Hv x). left. reflexivity. }
    remember (chars (join "," (map item_text (x :: items))) ++
              "]"%char :: rest) as r eqn:Hr.
    assert (Hstart : exists r0, r = c :: r0).
    { subst r. destruct items; cbn [map join]; rewrite Hx; flatten;
        eexists; reflexivity. }
    destruct Hstart as [r0 Hr0].
    rewrite Hr0 in Hparse |- *.
    rewrite (array_start fuel c r0 Hc), Hparse. reflexivity.
  - unfold item_text. cbn [plain height] in Hv, Hh.
    rewrite text_obj by exact Hv.
    destruct fields as [|f fields]; [reflexivity|].
    flatten.
    assert (Hfields : forall g rest',
               In g (f :: fields) -> delimited rest' ->
               parse_value fuel (chars (item_text (snd g)) ++ rest')
               = Some (snd g, rest')).
    { intros g rest' Hg Hrest'. apply IH.
      - apply (proj1 (forallb_forall _ _) Hv g Hg).
      - pose proof (height_field g _ Hg). lia.
      - exact Hrest'. }
    assert (Hlen : List.length (f :: fields) <=
                   List.length
                     (chars (join "," (map member_text (f :: fields))) ++
                      "}"%char :: rest)).
    { rewrite length_app, chars_length.
      pose proof (join_counts (map member_text (f :: fields))) as Hc.
      rewrite length_map in Hc.
      assert (List.length (f :: fields) <=
              String.length (join "," (map member_text (f :: fields)))).
      { apply Hc. intros t Ht. apply in_map_iff in Ht.
        destruct Ht as (g & <- & Hg). discriminate. }
      lia. }
    pose proof (parse_members_join (parse_value fuel) fields f _ rest
                  Hlen Hfields) as Hparse.
    remember (chars (join "," (map member_text (f :: fields))) ++
              "}"%char :: rest) as r eqn:Hr.
    assert (Hstart : exists r0, r = dquote :: r0).
    { subst r. destruct fields; cbn [map join]; unfold member_text at 1, quote;
        flatten; eexists; reflexivity. }
    destruct Hstart as [r0 Hr0].
    rewrite Hr0 in Hparse |- *.
    rewrite (object_start fuel r0), Hparse. reflexivity.
Qed.

(** X11.  Reading back what was written: for a value made of [null],
    booleans, safe integers, strings, arrays and objects,
    [JSON.stringify] gives a text, and [JSON.parse] of that text gives
    the value back. *)
Theorem parse_stringify (v : value) :
  plain v = true ->
  exists t, stringify v = VStr t /\ parse t = Some v.
Proof.
  intros Hv.
  pose proof (plain_text v Hv) as Ht.
  assert (Hitem : forall t, text v = Some t -> item_text v = t)
    by (intros t H; unfold item_text; rewrite H; reflexivity).
  unfold stringify.
  destruct (text v) as [t|] eqn:Htext; [|congruence].
  exists t. split; [reflexivity|].
  specialize (Hitem t eq_refl).
  pose proof (height_le_text (height v) v (le_n _) Hv) as Hh.
  rewrite Hitem in Hh.
  pose proof (parse_value_text (S (List.length (chars t))) v [] Hv) as Hp.
  rewrite Hitem, app_nil_r in Hp.
  unfold parse. rewrite Hp; [reflexivity| |exact I].
  rewrite chars_length. lia.
Qed.

Lemma parse_stringify_witness :
  exists t,
    stringify (VObj [("name", VStr "Ada"); ("tags", VArr [VNum (-3); VNull])])
    = VStr t /\
    parse t =
    Some (VObj [("name", VStr "Ada"); ("tags", VArr [VNum (-3); VNull])]).
Proof.
  apply (parse_stringify
           (VObj [("name", VStr "Ada"); ("tags", VArr [VNum (-3); VNull])])).
  reflexivity.
Defined.

End Roundtrip.

(** X12.  What one call stored, the next call serves: when the store
    answers the read with the text that [setCache] writes for a truthy
    value [R] made of [null], booleans, safe integers, strings, arrays
    and objects, the call reports [(null, R)] at once, without lock,
    computation or write. *)
Theorem stored_result_is_served (w : world) (o : options)
    (positional : list value) (cb : nat) (err R : value) (t : string) :
  plain R = true ->
  truthy R = true ->
  JSON.stringify R = VStr t ->
  on_get w (o_key o) = Some (err, RString t) ->
  truthy err = false ->
  exec w (cachify o (positional ++ [VFun cb])) =
  ([EvGet (o_key o); EvGetReply err (RString t); EvCallback cb VNull R],
   Returned).
Proof.
  intros Hplain HR Ht Hget Herr.
  destruct (Roundtrip.parse_stringify R Hplain) as (t' & Ht' & Hparse).
  rewrite Ht in Ht'. injection Ht' as <-.
  assert (Hdes : deserialize (RString t) = Some R).
  { unfold deserialize. cbn [reply_value truthy].
    destruct t as [|c t]; [discriminate Hparse|]. exact Hparse. }
  lookup Hget Hdes. rewrite Herr, HR, last_arg. reflexivity.
Qed.

Lemma stored_result_is_served_witness :
  exec (Sample.answering
          (Some (VNull, RString (item_text Sample.profile)))
          None None None)
    (cachify Sample.user7 ([VStr "ada"] ++ [VFun 1])) =
  ([EvGet "user:7";
    EvGetReply VNull (RString (item_text Sample.profile));
    EvCallback 1 VNull Sample.profile],
   Returned).
Proof.
  apply (stored_result_is_served
           (Sample.answering
              (Some (VNull, RString (item_text Sample.profile)))
              None None None)
           Sample.user7 [VStr "ada"] 1 VNull Sample.profile);
    reflexivity.
Defined.

Module Holder.

Import Concurrent.

(** The calls other than [i] keep to their standing when call [i]
    changes and no other call gets the lock. *)
Lemma others_fit (o : options) (s : system) (i : nat) (t : thread)
    (held' : string -> option handle) :
  coherent o s ->
  (forall j, j <> i -> holder s (lockKey o) <> Some j ->
             held' (lockKey o) <> Some j) ->
  thread_fits o (held' (lockKey o)) i t ->
  coherent o {| holder := held'; threads := update i t (threads s) |}.
Proof.
  intros Hs Hheld Hi j x Hj. cbn [threads holder] in *.
  apply Exclusion.nth_update in Hj. destruct Hj as [[<- ->]|[Hij Hj]].
  - exact Hi.
  - specialize (Hs j x Hj). destruct x as [p|callback|]; cbn [thread_fits] in *.
    + destruct Hs as [H|[Hlk H]]; [left; exact H|right].
      split; [|exact H]. apply Hheld; [congruence|exact Hlk].
    + exact Hs.
    + exact I.
Qed.

Lemma free_other (h j : handle) (held : string -> option handle)
    (name : string) :
  held name <> Some j -> free h held name <> Some j.
Proof.
  unfold free. destruct (held name) as [h'|]; [|discriminate].
  destruct (Nat.eqb h' h); [discriminate|trivial].
Qed.

Lemma free_own (h : handle) (held : string -> option handle)
    (name : string) :
  free h held name <> Some h.
Proof.
  unfold free. destruct (held name) as [h'|]; [|discriminate].
  destruct (Nat.eqb h' h) eqn:E; [discriminate|].
  apply Nat.eqb_neq in E. congruence.
Qed.

Lemma grant_other (name n : string) (i j : handle)
    (held : string -> option handle) :
  j <> i -> held n <> Some j -> grant name i held n <> Some j.
Proof.
  intros Hij H. unfold grant. destruct (n =? name)%string; congruence.
Qed.

Lemma expire_other (name n : string) (j : handle)
    (held : string -> option handle) :
  held n <> Some j -> expire name held n <> Some j.
Proof.
  intros H. unfold expire. destruct (n =? name)%string;
    [discriminate|exact H].
Qed.

(** Every step, the expiry of a lock included, keeps the calls to
    their standing. *)
Lemma step_coherent (o : options) (s s' : system) (i : nat)
    (a : answer) :
  coherent o s -> step s i a = Some s' -> coherent o s'.
Proof.
  intros Hs. unfold step.
  assert (Hexp : forall name,
             match holder s name with
             | Some _ => Some {| holder := expire name (holder s);
                                 threads := threads s |}
             | None => None
             end = Some s' -> coherent o s').
  { intros name. destruct (holder s name); [|discriminate].
    intros [= <-] j x Hj. cbn [threads holder] in *.
    specialize (Hs j x Hj). destruct x as [p|callback|]; cbn [thread_fits] in *.
    - destruct Hs as [H|[Hlk H]]; [left; exact H|right].
      split; [apply expire_other; exact Hlk|exact H].
    - exact Hs.
    - exact I. }
  destruct (nth_error (threads s) i) as [t|] eqn:Ht;
    [|destruct a; first [discriminate|apply Hexp]].
  pose proof (Hs i t Ht) as Hi.
  destruct t as [p|callback|]; [destruct p|..]; destruct a;
    try discriminate; try apply Hexp; cbn [thread_fits guarded] in Hi.
  - (* redis.get answered *)
    intros [= <-]. apply others_fit; [exact Hs|trivial|].
    cbn [thread_fits]. destruct Hi as [Hg|[Hlk Hg]]; auto.
  - (* redis.set answered *)
    intros [= <-]. apply others_fit; [exact Hs|trivial|].
    cbn [thread_fits]. destruct Hi as [Hg|[Hlk Hg]]; auto.
  - (* lock granted *)
    destruct (holder s name) as [h|] eqn:Hfree; [discriminate|].
    intros [= <-].
    destruct Hi as [[Hheld _]|[_ [_ [_ Hg]]]]; [discriminate|].
    apply others_fit; [exact Hs| |].
    + intros j Hj Hlk. apply grant_other; assumption.
    + cbn [thread_fits]. left. apply Hg.
  - (* release *)
    intros [= <-].
    destruct Hi as [[[= <-] Hg]|[_ [Hheld _]]]; [|discriminate].
    apply others_fit; [exact Hs| |].
    + intros j Hj Hlk. apply free_other. exact Hlk.
    + cbn [thread_fits]. right. split; [apply free_own|exact Hg].
  - (* cachedFunc throws *)
    intros [= <-]. apply others_fit; [exact Hs|trivial|].
    cbn [thread_fits guarded]. left. exact I.
  - (* cachedFunc called *)
    intros [= <-]. apply others_fit; [exact Hs|trivial|].
    cbn [thread_fits]. destruct Hi as [[_ Hg]|[_ [Hheld _]]].
    + exact Hg.
    + contradiction.
  - (* cachedFunc, called without callback, throws *)
    intros [= <-]. apply others_fit; [exact Hs|trivial|].
    cbn [thread_fits guarded]. left. exact I.
  - (* cachedFunc called without callback *)
    intros [= <-]. apply others_fit; [exact Hs|trivial|]. exact I.
  - (* the caller's callback *)
    intros [= <-]. apply others_fit; [exact Hs|trivial|].
    cbn [thread_fits]. destruct Hi as [Hg|[Hlk Hg]]; auto.
  - (* cachedFunc calls back *)
    intros [= <-]. apply others_fit; [exact Hs|trivial|].
    cbn [thread_fits]. left. apply Hi.
  - (* cachedFunc calls back with data that cannot be serialized *)
    intros [= <-]. apply others_fit; [exact Hs|trivial|].
    cbn [thread_fits]. left. apply Hi.
Qed.

Lemma start_coherent (o : options) (calls : list (list value)) :
  truthy (getLock o) = true -> coherent o (start o calls).
Proof.
  intros Hlock i t Hi. cbn [start threads holder] in *.
  rewrite nth_error_map in Hi.
  destruct (nth_error calls i) as [args|]; [|discriminate].
  injection Hi as <-. cbn [thread_fits]. right.
  split; [discriminate|apply Exclusion.guarded_cachify; exact Hlock].
Qed.

Lemma play_coherent (o : options) (schedule : list (nat * answer))
    (s s' : system) :
  coherent o s -> play schedule s = Some s' -> coherent o s'.
Proof.
  revert s. induction schedule as [|[i a] rest IH]; intros s Hs; cbn [play].
  - intros [= <-]. exact Hs.
  - destruct (step s i a) as [s1|] eqn:Hstep; [|discriminate].
    apply IH. apply (step_coherent o s s1 i a Hs Hstep).
Qed.

(** X15.  Among interleaved calls with locking on, a call that holds
    the lock never has a request for the lock pending: the holder can
    always go on, it cannot wait for itself.  This holds also when
    locks expire. *)
Theorem holder_never_requests_lock (o : options)
    (calls : list (list value)) (schedule : list (nat * answer))
    (s : system) (i : nat) (p : prog) :
  truthy (getLock o) = true ->
  play schedule (start o calls) = Some s ->
  holder s (lockKey o) = Some i ->
  nth_error (threads s) i = Some (Ready p) ->
  is_lock_request p = false.
Proof.
  intros Hlock Hplay Hheld Hi.
  pose proof (play_coherent o schedule _ s
                (start_coherent o calls Hlock) Hplay) as Hs.
  specialize (Hs i _ Hi).
  destruct p; try reflexivity.
  cbn [thread_fits guarded] in Hs.
  destruct Hs as [[Hnone _]|[Hlk _]]; [discriminate|contradiction].
Qed.

Lemma holder_never_requests_lock_witness :
  is_lock_request
    (Apply [VStr "ada"] (completion Sample.user7 (VFun 1) (Some 0)))
  = false.
Proof.
  apply (holder_never_requests_lock Sample.user7 two_calls
           [(0, GetAnswer VNull RNull); (0, Go)] first_holds 0);
    reflexivity.
Defined.

End Holder.
